(** * hypercore-auction-app: the auction state machine of [index.js]

    A shallow embedding of the auction operations of [index.js]
    ([openAuction], [bidAuction], [closeAuction], [updateCore],
    [processAction], [processMessage]) together with the runtime
    functions they rely on ([Number], [String.prototype.trim],
    [String.prototype.split] on [/\s+/]).

    Conventions.
    - A JavaScript string is a [string] holding its UTF-8 bytes.
    - A JavaScript number is a binary64 value, [spec_float] with
      [prec = 53] and [emax = 1024].
    - The price, name and type of a proposal are strings: this is what
      [processAction] obtains from [split] and what it serialises for its
      peers.
    - The operations are first given as the code reads, each run to
      completion; the interleavings that [await] allows come after, as
      calls and resumptions of operations. *)

From Stdlib Require Import ZArith String Ascii List Bool Lia.
From Stdlib Require Import Floats.SpecFloat.
From stdpp Require Import base option list gmap strings.

Import ListNotations.
Local Open Scope string_scope.
Local Open Scope list_scope.
Local Open Scope Z_scope.

(** ** JavaScript numbers *)

Module JS.

Definition prec : Z := 53.
Definition emax : Z := 1024.

Definition NaN : spec_float := S754_nan.

(** The UTF-8 encodings of the code points of [WhiteSpace] and
    [LineTerminator]: TAB, LF, VT, FF, CR, SP, U+00A0, U+1680,
    U+2000..U+200A, U+2028, U+2029, U+202F, U+205F, U+3000, U+FEFF.
    [\s], [trim] and [StrWhiteSpaceChar] all use this set. *)
Definition white_space_bytes : list (list nat) :=
  [ [9]; [10]; [11]; [12]; [13]; [32];
    [194; 160];
    [225; 154; 128];
    [226; 128; 128]; [226; 128; 129]; [226; 128; 130]; [226; 128; 131];
    [226; 128; 132]; [226; 128; 133]; [226; 128; 134]; [226; 128; 135];
    [226; 128; 136]; [226; 128; 137]; [226; 128; 138];
    [226; 128; 168]; [226; 128; 169]; [226; 128; 175];
    [226; 129; 159];
    [227; 128; 128];
    [239; 187; 191] ]%nat.

Definition white_space : list string :=
  map (fun l => string_of_list_ascii (map ascii_of_nat l)) white_space_bytes.

Fixpoint drop_string (n : nat) (s : string) : string :=
  match n, s with
  | S n', String _ s' => drop_string n' s'
  | _, _ => s
  end.

(** [after_white_space s] is what follows the white space character at
    the head of [s], if there is one. *)
Definition after_white_space (s : string) : option string :=
  match List.find (fun w => String.prefix w s) white_space with
  | Some w => Some (drop_string (String.length w) s)
  | None => None
  end.

Fixpoint trimStart_fuel (fuel : nat) (s : string) : string :=
  match fuel with
  | O => s
  | S fuel' =>
      match after_white_space s with
      | Some rest => trimStart_fuel fuel' rest
      | None => s
      end
  end.

Definition trimStart (s : string) : string :=
  trimStart_fuel (String.length s) s.

Definition rev_string (s : string) : string :=
  string_of_list_ascii (List.rev (list_ascii_of_string s)).

Definition before_white_space_rev (r : string) : option string :=
  match List.find (fun w => String.prefix (rev_string w) r) white_space with
  | Some w => Some (drop_string (String.length w) r)
  | None => None
  end.

Fixpoint trimEnd_fuel (fuel : nat) (r : string) : string :=
  match fuel with
  | O => r
  | S fuel' =>
      match before_white_space_rev r with
      | Some rest => trimEnd_fuel fuel' rest
      | None => r
      end
  end.

Definition trimEnd (s : string) : string :=
  rev_string (trimEnd_fuel (String.length s) (rev_string s)).

(** [String.prototype.trim] *)
Definition trim (s : string) : string := trimEnd (trimStart s).

(** [s.split(/\s+/)] for a trimmed [s]: the maximal runs of characters
    that are not white space; [[""]] when there is none. [cur] holds the
    bytes of the current run, last byte first. *)
Fixpoint split_fuel (fuel : nat) (s : string) (cur : list ascii) : list string :=
  match fuel with
  | O => []
  | S fuel' =>
      match s with
      | EmptyString =>
          match cur with
          | [] => []
          | _ => [string_of_list_ascii (List.rev cur)]
          end
      | String c s' =>
          match after_white_space s with
          | Some rest =>
              match cur with
              | [] => split_fuel fuel' rest []
              | _ => string_of_list_ascii (List.rev cur) :: split_fuel fuel' rest []
              end
          | None => split_fuel fuel' s' (c :: cur)
          end
      end
  end.

Definition split_white_space (s : string) : list string :=
  match split_fuel (S (String.length s)) s [] with
  | [] => [""]
  | arr => arr
  end.

(** *** [Number(string)]: StringToNumber *)

Definition digit_value (base : Z) (c : ascii) : option Z :=
  let n := Z.of_nat (nat_of_ascii c) in
  let v :=
    if (48 <=? n) && (n <=? 57) then Some (n - 48)
    else if (97 <=? n) && (n <=? 102) then Some (n - 87)
    else if (65 <=? n) && (n <=? 70) then Some (n - 55)
    else None in
  match v with
  | Some d => if d <? base then Some d else None
  | None => None
  end.

(** Reads the longest prefix of digits of [s] in [base]: the value of the
    digits read after [acc], how many were read, and the rest. *)
Fixpoint digits (base : Z) (s : string) (acc : Z) (count : nat) : Z * nat * string :=
  match s with
  | String c s' =>
      match digit_value base c with
      | Some d => digits base s' (base * acc + d) (S count)
      | None => (acc, count, s)
      end
  | EmptyString => (acc, count, s)
  end.

(** The binary64 value nearest to [m * 10^e10], ties to even, with the
    sign [neg]. *)
Definition round_decimal (neg : bool) (m : Z) (e10 : Z) : spec_float :=
  match m with
  | Zpos p =>
      if 0 <=? e10 then
        binary_normalize prec emax (if neg then - (m * 10 ^ e10) else m * 10 ^ e10) 0 neg
      else
        let '(q, e, l) := SFdiv_core_binary prec emax m 0 (10 ^ (- e10)) 0 in
        binary_round_aux prec emax neg q e l
  | _ => S754_zero neg
  end.

(** [ExponentPart_opt] followed by the end of the string: the exponent. *)
Definition exponent_part (s : string) : option Z :=
  match s with
  | EmptyString => Some 0
  | String c s' =>
      if (c =? "e")%char || (c =? "E")%char then
        let '(neg, s'') :=
          match s' with
          | String "+" t => (false, t)
          | String "-" t => (true, t)
          | _ => (false, s')
          end in
        match digits 10 s'' 0 0 with
        | (_, O, _) => None
        | (v, _, EmptyString) => Some (if neg then - v else v)
        | _ => None
        end
      else None
  end.

(** [StrUnsignedDecimalLiteral] *)
Definition unsigned_decimal (neg : bool) (s : string) : spec_float :=
  if (s =? "Infinity")%string then S754_infinity neg
  else
    let '(int_value, int_count, rest) := digits 10 s 0 0 in
    let '(value, frac_count, rest') :=
      match rest with
      | String "." t => digits 10 t int_value 0
      | _ => (int_value, O, rest)
      end in
    match int_count, frac_count with
    | O, O => NaN
    | _, _ =>
        match exponent_part rest' with
        | Some e => round_decimal neg value (e - Z.of_nat frac_count)
        | None => NaN
        end
    end.

(** [NonDecimalIntegerLiteral]: the digits after [0x], [0o] or [0b]. *)
Definition non_decimal (base : Z) (s : string) : spec_float :=
  match digits base s 0 0 with
  | (_, O, _) => NaN
  | (v, _, EmptyString) => round_decimal false v 0
  | _ => NaN
  end.

Definition StrNumericLiteral (s : string) : spec_float :=
  match s with
  | EmptyString => S754_zero false
  | String "0" (String "x" t) | String "0" (String "X" t) => non_decimal 16 t
  | String "0" (String "o" t) | String "0" (String "O" t) => non_decimal 8 t
  | String "0" (String "b" t) | String "0" (String "B" t) => non_decimal 2 t
  | String "+" t => unsigned_decimal false t
  | String "-" t => unsigned_decimal true t
  | _ => unsigned_decimal false s
  end.

Definition Number (s : string) : spec_float := StrNumericLiteral (trim s).

(** [a <= b] and [a < b] on numbers; both are false when an operand is
    [NaN]. *)
Definition le (a b : spec_float) : bool := SFleb a b.
Definition lt (a b : spec_float) : bool := SFltb a b.

End JS.

(** ** The data model *)

(** The object that [updateCore] serialises into a block of the auction's
    hypercore. [JSON.parse (block.toString ())] gives the same fields
    back, so a block is kept as the record itself. *)
Module Block.
Record auction : Type := Auction {
  type : string;
  name : string;
  owner : string;
  actor : string;
  price : string;
  time : Z
}.
End Block.
Export Block.

(** The object that [processAction] broadcasts. *)
Record message : Type := Message {
  msg_type : string;
  msg_name : string;
  msg_price : string
}.

(** The lines written by [console.log], one constructor per template
    string of the source, carrying the values it interpolates. *)
Inductive line : Type :=
| info_opened (peer name price : string)
| info_bid (peer name price : string)
| info_closed (peer name price : string)
| info_updated (length : nat) (name : string)
| error_usage (action : string)
| error_invalid_action (action : string)
| error_message_format (peer rawMessage : string)
| error_reopen (name peer : string)
| error_not_found (name : string)
| error_closed (name : string)
| error_lower_price (price name peer last_price : string)
| error_not_owner (name peer : string)
| error_different_price (name price peer last_price : string).

(** What a peer process holds and emits: the corestore (one hypercore,
    a list of blocks, per auction name; a core that was never appended to
    has length 0 and is absent from the map), the console, and the
    payloads written to connections, in order. *)
Record world : Type := World {
  store : gmap string (list auction);
  console : list line;
  written : list (string * string)
}.

(** What the runtime supplies while one action runs: the value of
    [Date.now ()] and the remote keys of [swarm.connections]. *)
Record env : Type := Env {
  Date_now : Z;
  swarm_connections : list string
}.

(** ** Effects *)

Definition M (A : Type) : Type := env -> world -> A * world.

Definition ret {A : Type} (a : A) : M A := fun _ w => (a, w).

Definition bind {A B : Type} (m : M A) (k : A -> M B) : M B :=
  fun e w => let '(a, w') := m e w in k a e w'.

Declare Scope js_scope.
Delimit Scope js_scope with js.
Notation "'let*' x := m 'in' k" := (bind m (fun x => k))
  (at level 10, x name, m at level 100, k at level 200) : js_scope.
Notation "m ';;' k" := (bind m (fun _ => k))
  (at level 100, k at level 200, right associativity) : js_scope.

Definition console_log (l : line) : M unit :=
  fun _ w => (tt, World (store w) (console w ++ [l]) (written w)).

(** The blocks of the hypercore called [name]. *)
Definition log (w : world) (name : string) : list auction :=
  default [] (store w !! name).

(** [session.get ({ name })], [core.ready ()]: the blocks of the core *)
Definition session_get (name : string) : M (list auction) :=
  fun _ w => (log w name, w).

(** [core.append (block)] *)
Definition core_append (name : string) (block : auction) : M unit :=
  fun _ w =>
    (tt, World (<[name := log w name ++ [block]]> (store w))
               (console w) (written w)).

Definition now : M Z := fun e w => (Date_now e, w).

Definition connections : M (list string) := fun e w => (swarm_connections e, w).

(** [peer.write (payload)] *)
Definition peer_write (peer payload : string) : M unit :=
  fun _ w => (tt, World (store w) (console w) (written w ++ [(peer, payload)])).

Fixpoint for_each {A : Type} (l : list A) (body : A -> M unit) : M unit :=
  match l with
  | [] => ret tt
  | x :: l' => bind (body x) (fun _ => for_each l' body)
  end.

(** ** The auction operations *)

Local Open Scope js_scope.

(** [a != b] on two strings *)
Definition neq (a b : string) : bool := negb (String.eqb a b).

Definition updateCore (type name owner actor price : string) : M unit :=
  let* time := now in
  let auction := Auction type name owner actor price time in
  core_append name auction ;;
  let* core := session_get name in
  console_log (info_updated (length core) name).

Definition openAuction (peer name price : string) : M bool :=
  console_log (info_opened peer name price) ;;
  let* core := session_get name in
  match last core with
  | None => (* core.length == 0 *)
      updateCore "open" name peer peer price ;;
      ret true
  | Some lastAction =>
      if neq (type lastAction) "close" || neq (owner lastAction) peer then
        console_log (error_reopen name peer) ;;
        ret false
      else
        updateCore "open" name (owner lastAction) peer price ;;
        ret true
  end.

Definition bidAuction (peer name price : string) : M bool :=
  console_log (info_bid peer name price) ;;
  let* core := session_get name in
  match last core with
  | None =>
      console_log (error_not_found name) ;;
      ret false
  | Some lastAction =>
      if String.eqb (type lastAction) "close" then
        console_log (error_closed name) ;;
        ret false
      else if JS.le (JS.Number price) (JS.Number (Block.price lastAction)) then
        console_log (error_lower_price price name peer (Block.price lastAction)) ;;
        ret false
      else
        updateCore "bid" name (owner lastAction) peer price ;;
        ret true
  end.

Definition closeAuction (peer name price : string) : M bool :=
  console_log (info_closed peer name price) ;;
  let* core := session_get name in
  match last core with
  | None =>
      console_log (error_not_found name) ;;
      ret false
  | Some lastAction =>
      if neq (owner lastAction) peer then
        console_log (error_not_owner name peer) ;;
        ret false
      else if neq (Block.price lastAction) price then
        console_log (error_different_price name price peer (Block.price lastAction)) ;;
        ret false
      else
        updateCore "close" name (actor lastAction) peer price ;;
        ret true
  end.

(** ** The entry points of a peer *)

Section Peer.

(** [localPeer]: the hex form of the swarm's public key. *)
Variable localPeer : string.

(** [JSON.stringify] on the broadcast object, and [JSON.parse] on an
    inbound payload: [None] when it throws. A payload that parses is
    taken to have the shape [processAction] writes, an object with
    string fields [type], [name] and [price]. *)
Variable JSON_stringify : message -> string.
Variable JSON_parse : string -> option message.

(** The [switch] on [arr[0]]; [None] is its [default] branch. *)
Definition action_of (type name price : string) : option (M bool) :=
  if String.eqb type "open" then Some (openAuction localPeer name price)
  else if String.eqb type "bid" then Some (bidAuction localPeer name price)
  else if String.eqb type "close" then Some (closeAuction localPeer name price)
  else None.

Definition processAction (action : string) : M unit :=
  match JS.split_white_space (JS.trim action) with
  | type :: name :: price :: _ =>
      match action_of type name price with
      | Some act =>
          let* actionResult := act in
          if actionResult : bool then
            let msg := Message type name price in
            let* peers := connections in
            for_each peers (fun peer => peer_write peer (JSON_stringify msg))
          else ret tt
      | None => console_log (error_invalid_action action)
      end
  | _ => (* arr.length < 3 *)
      console_log (error_usage action)
  end.

Definition processMessage (peer rawMessage : string) : M unit :=
  match JSON_parse rawMessage with
  | None => console_log (error_message_format peer rawMessage)
  | Some msg =>
      (if String.eqb (msg_type msg) "open"
       then openAuction peer (msg_name msg) (msg_price msg) ;; ret tt
       else ret tt) ;;
      (if String.eqb (msg_type msg) "bid"
       then bidAuction peer (msg_name msg) (msg_price msg) ;; ret tt
       else ret tt) ;;
      (if String.eqb (msg_type msg) "close"
       then closeAuction peer (msg_name msg) (msg_price msg) ;; ret tt
       else ret tt)
  end.

(** One action of the peer process: a line typed at the prompt or a
    payload received from a connection. *)
Inductive step : world -> world -> Prop :=
| step_action (action : string) (e : env) (w : world) :
    step w (snd (processAction action e w))
| step_message (peer rawMessage : string) (e : env) (w : world) :
    step w (snd (processMessage peer rawMessage e w)).

(** The worlds a peer process goes through, starting with a fresh
    corestore ([fs.rmSync] empties it at start-up). *)
Inductive reachable : world -> Prop :=
| reachable_start (w : world) : store w = ∅ -> reachable w
| reachable_step (w w' : world) : reachable w -> step w w' -> reachable w'.

End Peer.

(** ** Properties of a log *)

(** The three validated operations, as proposals. *)
Inductive proposal : Type :=
| Open (peer name price : string)
| Bid (peer name price : string)
| Close (peer name price : string).

Definition propose (p : proposal) : M bool :=
  match p with
  | Open peer name price => openAuction peer name price
  | Bid peer name price => bidAuction peer name price
  | Close peer name price => closeAuction peer name price
  end.

(** The proposal that a peer makes with the three fields of a command line
    or of a decoded payload; none when [type] is not one of the three
    action names. *)
Definition proposal_of (peer type name price : string) : option proposal :=
  if String.eqb type "open" then Some (Open peer name price)
  else if String.eqb type "bid" then Some (Bid peer name price)
  else if String.eqb type "close" then Some (Close peer name price)
  else None.

(** The world after a sequence of proposals, each with the environment it
    runs in, whatever their outcomes. *)
Fixpoint run (ps : list (env * proposal)) (w : world) : world :=
  match ps with
  | [] => w
  | (e, p) :: ps' => run ps' (snd (propose p e w))
  end.

(** The logs that accepted operations produce: every proposal either is
    rejected, and changes no log, or is accepted. *)
Definition produced (w : world) : Prop :=
  exists (ps : list (env * proposal)) (w0 : world), store w0 = ∅ /\ w = run ps w0.

Definition is_close (a : auction) : bool := String.eqb (type a) "close".

(** The numeric prices of the entries that are not [close] entries, in
    log order. *)
Definition non_close_prices (l : list auction) : list spec_float :=
  List.map (fun a => JS.Number (price a)) (List.filter (fun a => negb (is_close a)) l).

Fixpoint strictly_increasing (l : list spec_float) : bool :=
  match l with
  | a :: (b :: _) as l' => JS.lt a b && strictly_increasing l'
  | _ => true
  end.

Definition is_number (s : string) : Prop := JS.Number s <> JS.NaN.

(** [a] is immediately followed by [b] in [l]. *)
Definition consecutive (l : list auction) (a b : auction) : Prop :=
  exists l1 l2 : list auction, l = l1 ++ a :: b :: l2.

(** ** A sample wire format

    A serialiser and a parser for messages whose fields hold no double
    quote, to run the entry points on concrete payloads. *)
Module Sample.

Definition quote : string := String (ascii_of_nat 34) EmptyString.

Definition stringify (m : message) : string :=
  "{" ++ quote ++ "type" ++ quote ++ ":" ++ quote ++ msg_type m ++ quote ++ ","
      ++ quote ++ "name" ++ quote ++ ":" ++ quote ++ msg_name m ++ quote ++ ","
      ++ quote ++ "price" ++ quote ++ ":" ++ quote ++ msg_price m ++ quote ++ "}".

(** [expect p s]: [s] without its prefix [p]. *)
Definition expect (p s : string) : option string :=
  if String.prefix p s then Some (JS.drop_string (String.length p) s) else None.

(** The characters of [s] before the first double quote, and what
    follows that quote. *)
Fixpoint until_quote (s : string) : option (string * string) :=
  match s with
  | EmptyString => None
  | String c s' =>
      if Ascii.eqb c (ascii_of_nat 34) then Some (EmptyString, s')
      else match until_quote s' with
           | Some (v, rest) => Some (String c v, rest)
           | None => None
           end
  end.

Definition parse (s : string) : option message :=
  s1 ← expect ("{" ++ quote ++ "type" ++ quote ++ ":" ++ quote) s;
  '(t, s2) ← until_quote s1;
  s3 ← expect ("," ++ quote ++ "name" ++ quote ++ ":" ++ quote) s2;
  '(n, s4) ← until_quote s3;
  s5 ← expect ("," ++ quote ++ "price" ++ quote ++ ":" ++ quote) s4;
  '(p, s6) ← until_quote s5;
  if String.eqb s6 "}" then Some (Message t n p) else None.

End Sample.

(** ** Outcomes of a proposal *)

(** The result of a proposal that is turned down: [false], the two lines
    logged, and nothing else. *)
Definition rejected (w : world) (info err : line) : bool * world :=
  (false, World (store w) (console w ++ [info; err]) (written w)).

(** The result of a proposal that is taken: [true], the block [a] at the
    end of its core, and the two lines logged. *)
Definition accepted (w : world) (info : line) (a : auction) : bool * world :=
  (true,
   World (<[name a := log w (name a) ++ [a]]> (store w))
         (console w ++ [info; info_updated (S (length (log w (name a)))) (name a)])
         (written w)).

(** What the validation rules allow [b] to be when it directly follows
    [a] in a log. *)
Definition legal_successor (a b : auction) : Prop :=
  type b = "close"
  \/ (type b = "open" /\ type a = "close")
  \/ (type b = "bid" /\ type a <> "close"
      /\ JS.le (JS.Number (price b)) (JS.Number (price a)) = false).

Definition legal_log (l : list auction) : Prop :=
  forall a b : auction, consecutive l a b -> legal_successor a b.

(** Every core of the store holds a log that the rules allow. *)
Definition legal_store (w : world) : Prop :=
  forall name : string, legal_log (log w name).

(** An entry of an open round with a numeric price. *)
Definition numeric_bid (a : auction) : Prop :=
  type a <> "close" /\ is_number (price a).

(** The writes of a broadcast: one payload per connection. *)
Definition fan_out (peers : list string) (payload : string) : list (string * string) :=
  map (fun peer => (peer, payload)) peers.

(** ** The scenario of the specification *)

Module Scenario.

Definition A : string := "A".
Definition B : string := "B".
Definition C : string := "C".

Definition fresh : world := World ∅ [] [].

(** A clock reading for each step. *)
Definition at_time (t : Z) : env := Env t [].

Definition w1 : world := snd (openAuction A "pic1" "75" (at_time 1) fresh).
Definition w2 : world := snd (bidAuction B "pic1" "75" (at_time 2) w1).
Definition w3 : world := snd (bidAuction C "pic1" "75.5" (at_time 3) w2).
Definition w4 : world := snd (bidAuction B "pic1" "80" (at_time 4) w3).
Definition w5 : world := snd (closeAuction A "pic1" "80" (at_time 5) w4).
Definition w6 : world := snd (openAuction A "pic1" "90" (at_time 6) w5).
Definition w7 : world := snd (openAuction B "pic1" "90" (at_time 7) w6).

(** Closing once more, by the new owner, after [w5]. *)
Definition closed_twice : bool * world :=
  closeAuction B "pic1" "80" (at_time 6) w5.

(** An auction opened at [80] and closed by its seller at [80.0]. *)
Definition v1 : world := snd (openAuction A "pic1" "80" (at_time 1) fresh).
Definition closed_at_80_0 : bool * world :=
  closeAuction A "pic1" "80.0" (at_time 2) v1.

(** An auction opened at [75], closed unsold, and reopened at [10]. *)
Definition reopened_lower : world :=
  run [ (at_time 1, Open A "pic1" "75");
        (at_time 2, Close A "pic1" "75");
        (at_time 3, Open A "pic1" "10") ] fresh.

End Scenario.

(** ** What the operations record *)

Definition name_of (p : proposal) : string :=
  match p with
  | Open _ name _ | Bid _ name _ | Close _ name _ => name
  end.

Definition peer_of (p : proposal) : string :=
  match p with
  | Open peer _ _ | Bid peer _ _ | Close peer _ _ => peer
  end.

Definition price_of (p : proposal) : string :=
  match p with
  | Open _ _ price | Bid _ _ price | Close _ _ price => price
  end.

(** No white space character starts at any position of [s]. *)
Definition white_space_free (s : string) : Prop :=
  forall n : nat, JS.after_white_space (JS.drop_string n s) = None.

(** A word as [split] yields them from a line that is not blank. *)
Definition word (s : string) : Prop := s <> "" /\ white_space_free s.

(** The fields that each operation writes into the block [b] it appends
    after the tail [a]: [openAuction] records the reopening peer as owner
    and actor, [bidAuction] carries the owner over, [closeAuction] makes
    the tail's actor the owner and keeps the tail's price. *)
Definition recorded_successor (a b : auction) : Prop :=
  (type b = "open" /\ type a = "close" /\ owner a = actor b /\ owner b = actor b)
  \/ (type b = "bid" /\ type a <> "close" /\ owner b = owner a
      /\ JS.le (JS.Number (price b)) (JS.Number (price a)) = false)
  \/ (type b = "close" /\ owner b = actor a /\ actor b = owner a
      /\ price b = price a).

(** The first block of a core: an [open] entry of a peer for itself. *)
Definition recorded_first (a : auction) : Prop :=
  type a = "open" /\ owner a = actor a.

Definition recorded_log (core_name : string) (l : list auction) : Prop :=
  Forall (fun a => name a = core_name) l
  /\ (forall a, head l = Some a -> recorded_first a)
  /\ (forall a b, consecutive l a b -> recorded_successor a b).

Definition recorded_store (w : world) : Prop :=
  forall core_name : string, recorded_log core_name (log w core_name).

(** A block without its timestamp. *)
Definition untimed (a : auction) : auction :=
  Auction (type a) (name a) (owner a) (actor a) (price a) 0.

(** Two peers hold the same history when their cores agree on everything
    but the local times of the appends. *)
Definition same_history (w1 w2 : world) : Prop :=
  forall core_name : string,
    List.map untimed (log w1 core_name) = List.map untimed (log w2 core_name).

(** ** The connection counter

    [peersCount] and the handler of the swarm's [update] event, which is
    given [swarm.connections.size]. The console is kept as the counts of
    the lines it logs. *)
Module Swarm.

Record counter : Type := Counter {
  peersCount : nat;
  logged : list nat
}.

Definition start : counter := Counter 0 [].

Definition on_update (size : nat) (c : counter) : counter :=
  if negb (Nat.eqb (peersCount c) size)
  then Counter size (logged c ++ [size])
  else c.

(** The counter after a sequence of [update] events. *)
Definition updates (sizes : list nat) (c : counter) : counter :=
  fold_left (fun c size => on_update size c) sizes c.

(** No two neighbours of [l] are equal. *)
Fixpoint no_repeat (l : list nat) : Prop :=
  match l with
  | a :: (b :: _) as l' => a <> b /\ no_repeat l'
  | _ => True
  end.

End Swarm.

(** ** Operations that interleave

    An operation is suspended at each [await], and neither the prompt nor
    a connection waits for the operation it started. Between the moment
    an operation reads [core.length] and the moment it appends, other
    operations may append to the same core; the block it validates
    against, at index [core.length - 1], is then no longer the tail. *)

Definition type_of (p : proposal) : string :=
  match p with
  | Open _ _ _ => "open"
  | Bid _ _ _ => "bid"
  | Close _ _ _ => "close"
  end.

(** The first statement of an operation. *)
Definition announce (p : proposal) : M unit :=
  match p with
  | Open peer name price => console_log (info_opened peer name price)
  | Bid peer name price => console_log (info_bid peer name price)
  | Close peer name price => console_log (info_closed peer name price)
  end.

(** [openAuction] from the test of [core.length] on; [lastAction] is the
    block it read, none when [core.length] was 0. *)
Definition openAuction_from (peer name price : string) (lastAction : option auction) : M bool :=
  match lastAction with
  | None =>
      updateCore "open" name peer peer price ;;
      ret true
  | Some lastAction =>
      if neq (type lastAction) "close" || neq (owner lastAction) peer then
        console_log (error_reopen name peer) ;;
        ret false
      else
        updateCore "open" name (owner lastAction) peer price ;;
        ret true
  end.

Definition bidAuction_from (peer name price : string) (lastAction : option auction) : M bool :=
  match lastAction with
  | None =>
      console_log (error_not_found name) ;;
      ret false
  | Some lastAction =>
      if String.eqb (type lastAction) "close" then
        console_log (error_closed name) ;;
        ret false
      else if JS.le (JS.Number price) (JS.Number (Block.price lastAction)) then
        console_log (error_lower_price price name peer (Block.price lastAction)) ;;
        ret false
      else
        updateCore "bid" name (owner lastAction) peer price ;;
        ret true
  end.

Definition closeAuction_from (peer name price : string) (lastAction : option auction) : M bool :=
  match lastAction with
  | None =>
      console_log (error_not_found name) ;;
      ret false
  | Some lastAction =>
      if neq (owner lastAction) peer then
        console_log (error_not_owner name peer) ;;
        ret false
      else if neq (Block.price lastAction) price then
        console_log (error_different_price name price peer (Block.price lastAction)) ;;
        ret false
      else
        updateCore "close" name (actor lastAction) peer price ;;
        ret true
  end.

Definition resume (p : proposal) (lastAction : option auction) : M bool :=
  match p with
  | Open peer name price => openAuction_from peer name price lastAction
  | Bid peer name price => bidAuction_from peer name price lastAction
  | Close peer name price => closeAuction_from peer name price lastAction
  end.

(** The block at index [len - 1] of the core, [len] being the
    [core.length] that the operation read; none when it read 0. Cores
    only grow, so that block is the last of the first [len] blocks of
    the core as it is now. A [len] above the length of the core, which
    no operation can have read, stands for the whole core. *)
Definition block_read (name : string) (len : nat) : M (option auction) :=
  fun _ w => (last (take len (log w name)), w).

(** What happens at a peer, one step at a time: an operation is called,
    or an operation that read [len] as [core.length] goes on from
    there. *)
Inductive event : Type :=
| Call (p : proposal)
| Resume (p : proposal) (len : nat).

Definition occur (ev : event) : M unit :=
  match ev with
  | Call p => announce p
  | Resume p len =>
      let* lastAction := block_read (name_of p) len in
      resume p lastAction ;;
      ret tt
  end.

Fixpoint interleave (evs : list (env * event)) (w : world) : world :=
  match evs with
  | [] => w
  | (e, ev) :: evs' => interleave evs' (snd (occur ev e w))
  end.

(** Every operation goes on while its core still has the length it read:
    no block was appended to that core between its read of the tail and
    its own append. *)
Fixpoint sequential (evs : list (env * event)) (w : world) : Prop :=
  match evs with
  | [] => True
  | (e, ev) :: evs' =>
      match ev with
      | Call _ => True
      | Resume p len => len = length (log w (name_of p))
      end
      /\ sequential evs' (snd (occur ev e w))
  end.

Definition sequentially_produced (w : world) : Prop :=
  exists (evs : list (env * event)) (w0 : world),
    store w0 = ∅ /\ sequential evs w0 /\ w = interleave evs w0.

(** The worlds that operations reach from an empty store, however they
    interleave. *)
Definition interleaved (w : world) : Prop :=
  exists (evs : list (env * event)) (w0 : world),
    store w0 = ∅ /\ w = interleave evs w0.

(** * Proofs *)

Lemma log_insert_eq (s : gmap string (list auction)) c wr name l :
  log (World (<[name := l]> s) c wr) name = l.
Proof. unfold log; simpl. by rewrite lookup_insert_eq. Qed.

Lemma log_insert_ne (s : gmap string (list auction)) c wr name name' l :
  name <> name' -> log (World (<[name := l]> s) c wr) name' = default [] (s !! name').
Proof. intros H. unfold log; simpl. by rewrite lookup_insert_ne. Qed.

Lemma neq_false a b : neq a b = false <-> a = b.
Proof.
  unfold neq. rewrite negb_false_iff. apply String.eqb_eq.
Qed.

Lemma neq_true a b : neq a b = true <-> a <> b.
Proof.
  unfold neq. rewrite negb_true_iff. apply String.eqb_neq.
Qed.

Lemma updateCore_eq type name owner actor price e w :
  updateCore type name owner actor price e w =
  (tt, World (<[name := log w name ++ [Auction type name owner actor price (Date_now e)]]> (store w))
             (console w ++ [info_updated (S (length (log w name))) name])
             (written w)).
Proof.
  unfold updateCore, bind, now, core_append, session_get, console_log; simpl.
  rewrite log_insert_eq, length_app, Nat.add_comm. reflexivity.
Qed.

Lemma openAuction_eq peer name price e w :
  openAuction peer name price e w =
  match last (log w name) with
  | None =>
      accepted w (info_opened peer name price)
        (Auction "open" name peer peer price (Date_now e))
  | Some lastAction =>
      if neq (type lastAction) "close" || neq (owner lastAction) peer then
        rejected w (info_opened peer name price) (error_reopen name peer)
      else
        accepted w (info_opened peer name price)
          (Auction "open" name (owner lastAction) peer price (Date_now e))
  end.
Proof.
  unfold openAuction, bind at 1 2. unfold console_log at 1, session_get at 1. simpl.
  change (log (World (store w) (console w ++ [info_opened peer name price]) (written w)) name)
    with (log w name).
  destruct (last (log w name)) as [lastAction|].
  - destruct (neq (type lastAction) "close" || neq (owner lastAction) peer).
    + unfold bind, console_log, ret, rejected; simpl. by rewrite <- app_assoc.
    + unfold bind, ret. rewrite updateCore_eq. unfold accepted; simpl.
      by rewrite <- app_assoc.
  - unfold bind, ret. rewrite updateCore_eq. unfold accepted; simpl.
    by rewrite <- app_assoc.
Qed.

Lemma bidAuction_eq peer name price e w :
  bidAuction peer name price e w =
  match last (log w name) with
  | None => rejected w (info_bid peer name price) (error_not_found name)
  | Some lastAction =>
      if String.eqb (type lastAction) "close" then
        rejected w (info_bid peer name price) (error_closed name)
      else if JS.le (JS.Number price) (JS.Number (Block.price lastAction)) then
        rejected w (info_bid peer name price)
          (error_lower_price price name peer (Block.price lastAction))
      else
        accepted w (info_bid peer name price)
          (Auction "bid" name (owner lastAction) peer price (Date_now e))
  end.
Proof.
  unfold bidAuction, bind at 1 2. unfold console_log at 1, session_get at 1. simpl.
  change (log (World (store w) (console w ++ [info_bid peer name price]) (written w)) name)
    with (log w name).
  destruct (last (log w name)) as [lastAction|].
  - destruct (String.eqb (type lastAction) "close").
    + unfold bind, console_log, ret, rejected; simpl. by rewrite <- app_assoc.
    + destruct (JS.le _ _).
      * unfold bind, console_log, ret, rejected; simpl. by rewrite <- app_assoc.
      * unfold bind, ret. rewrite updateCore_eq. unfold accepted; simpl.
        by rewrite <- app_assoc.
  - unfold bind, console_log, ret, rejected; simpl. by rewrite <- app_assoc.
Qed.

Lemma closeAuction_eq peer name price e w :
  closeAuction peer name price e w =
  match last (log w name) with
  | None => rejected w (info_closed peer name price) (error_not_found name)
  | Some lastAction =>
      if neq (owner lastAction) peer then
        rejected w (info_closed peer name price) (error_not_owner name peer)
      else if neq (Block.price lastAction) price then
        rejected w (info_closed peer name price)
          (error_different_price name price peer (Block.price lastAction))
      else
        accepted w (info_closed peer name price)
          (Auction "close" name (actor lastAction) peer price (Date_now e))
  end.
Proof.
  unfold closeAuction, bind at 1 2. unfold console_log at 1, session_get at 1. simpl.
  change (log (World (store w) (console w ++ [info_closed peer name price]) (written w)) name)
    with (log w name).
  destruct (last (log w name)) as [lastAction|].
  - destruct (neq (owner lastAction) peer).
    + unfold bind, console_log, ret, rejected; simpl. by rewrite <- app_assoc.
    + destruct (neq _ _).
      * unfold bind, console_log, ret, rejected; simpl. by rewrite <- app_assoc.
      * unfold bind, ret. rewrite updateCore_eq. unfold accepted; simpl.
        by rewrite <- app_assoc.
  - unfold bind, console_log, ret, rejected; simpl. by rewrite <- app_assoc.
Qed.

Lemma store_rejected w info err : store (snd (rejected w info err)) = store w.
Proof. reflexivity. Qed.

Lemma log_accepted w info a :
  log (snd (accepted w info a)) (name a) = log w (name a) ++ [a].
Proof. unfold accepted; simpl. apply log_insert_eq. Qed.

Lemma log_accepted_ne w info a name' :
  name a <> name' -> log (snd (accepted w info a)) name' = log w name'.
Proof. intros H. unfold accepted; simpl. by apply log_insert_ne. Qed.

(** An accepted block makes its core longer, so the store is not the one
    it was. *)
Lemma store_accepted_changed w info a : store (snd (accepted w info a)) <> store w.
Proof.
  intros H.
  assert (Hl : log (snd (accepted w info a)) (name a) = log w (name a))
    by (unfold log; by rewrite H).
  rewrite log_accepted in Hl.
  apply (f_equal length) in Hl. rewrite length_app in Hl. simpl in Hl. lia.
Qed.

(** ** Closing *)

(** [closeAuction] never looks at the type of the tail: whoever is in the
    owner field of the tail closes at the tail's price, whatever the tail
    is. *)
Lemma closeAuction_any_tail peer name price e w tail :
  last (log w name) = Some tail ->
  owner tail = peer ->
  Block.price tail = price ->
  closeAuction peer name price e w =
  accepted w (info_closed peer name price)
    (Auction "close" name (actor tail) peer price (Date_now e)).
Proof.
  intros Htail Hown Hprice. rewrite closeAuction_eq, Htail.
  apply neq_false in Hown. apply neq_false in Hprice.
  by rewrite Hown, Hprice.
Qed.

(** C1, at the failing input. After A opened [pic1] at 75, C bid 75.5, B
    bid 80 and A closed at 80, the tail is a [close] entry owned by B. A
    bid is then turned down as the auction is closed, but a close by B at
    80 is taken: a second [close] entry is appended, which hands the
    auction back to A. *)
Lemma close_on_closed_tail_accepted :
  last (log Scenario.w5 "pic1") = Some (Auction "close" "pic1" "B" "A" "80" 5)
  /\ bidAuction "B" "pic1" "85" (Scenario.at_time 6) Scenario.w5
     = rejected Scenario.w5 (info_bid "B" "pic1" "85") (error_closed "pic1")
  /\ fst Scenario.closed_twice = true
  /\ log (snd Scenario.closed_twice) "pic1"
     = log Scenario.w5 "pic1" ++ [Auction "close" "pic1" "A" "B" "80" 6].
Proof.
  split; [by vm_compute|].
  split; [rewrite bidAuction_eq; reflexivity|].
  unfold Scenario.closed_twice.
  rewrite (closeAuction_any_tail _ _ _ _ _ (Auction "close" "pic1" "B" "A" "80" 5));
    [|by vm_compute|reflexivity|reflexivity].
  split; [reflexivity|]. apply (log_accepted _ _ (Auction "close" "pic1" "A" "B" "80" 6)).
Qed.



(** A close by the peer in the tail's owner field is taken exactly when
    its price is the very string recorded in the tail. *)
Lemma closeAuction_same_price_string peer name price e w tail :
  last (log w name) = Some tail ->
  owner tail = peer ->
  fst (closeAuction peer name price e w) = true <-> Block.price tail = price.
Proof.
  intros Htail Hown. rewrite closeAuction_eq, Htail.
  apply neq_false in Hown. rewrite Hown.
  destruct (neq (Block.price tail) price) eqn:Hprice; simpl.
  - apply neq_true in Hprice. split; [discriminate|done].
  - apply neq_false in Hprice. done.
Qed.

(** C4, at the failing input. On an auction opened by A at [80], a close
    by A at [80.0] names the same number, and the bid guard, which
    converts with [Number], treats the two prices as equal; the close
    guard compares the two strings and turns the close down. *)
Lemma close_compares_price_strings :
  JS.Number "80.0" = JS.Number "80"
  /\ last (log Scenario.v1 "pic1") = Some (Auction "open" "pic1" "A" "A" "80" 1)
  /\ bidAuction "B" "pic1" "80.0" (Scenario.at_time 2) Scenario.v1
     = rejected Scenario.v1 (info_bid "B" "pic1" "80.0")
         (error_lower_price "80.0" "pic1" "B" "80")
  /\ Scenario.closed_at_80_0
     = rejected Scenario.v1 (info_closed "A" "pic1" "80.0")
         (error_different_price "pic1" "80.0" "A" "80").
Proof.
  split; [by vm_compute|]. split; [by vm_compute|].
  split; [rewrite bidAuction_eq|unfold Scenario.closed_at_80_0; rewrite closeAuction_eq];
    reflexivity.
Qed.

(** ** Opening *)

(** C5. On an auction whose tail is a [close] entry, an open succeeds
    exactly when the proposer is the owner recorded in that entry. Any
    other peer gets the reopen error and no store changes; the recorded
    owner gets a new [open] entry. *)
Theorem reopen_iff_new_owner peer name price e w tail :
  last (log w name) = Some tail ->
  type tail = "close" ->
  (fst (openAuction peer name price e w) = true <-> peer = owner tail)
  /\ (peer <> owner tail ->
      openAuction peer name price e w
      = rejected w (info_opened peer name price) (error_reopen name peer))
  /\ (peer = owner tail ->
      log (snd (openAuction peer name price e w)) name
      = log w name ++ [Auction "open" name peer peer price (Date_now e)]).
Proof.
  intros Htail Htype. rewrite openAuction_eq, Htail.
  apply neq_false in Htype. rewrite Htype. simpl.
  destruct (neq (owner tail) peer) eqn:Hown.
  - apply neq_true in Hown. repeat split; try done; intros; simpl in *; congruence.
  - apply neq_false in Hown. subst peer. repeat split; try done.
    intros _. apply (log_accepted _ _ (Auction "open" name _ _ _ _)).
Qed.

Lemma reopen_iff_new_owner_witness :
  (fst (openAuction "A" "pic1" "90" (Scenario.at_time 6) Scenario.w5) = true
   <-> "A" = owner (Auction "close" "pic1" "B" "A" "80" 5))
  /\ ("A" <> owner (Auction "close" "pic1" "B" "A" "80" 5) ->
      openAuction "A" "pic1" "90" (Scenario.at_time 6) Scenario.w5
      = rejected Scenario.w5 (info_opened "A" "pic1" "90") (error_reopen "pic1" "A"))
  /\ ("A" = owner (Auction "close" "pic1" "B" "A" "80" 5) ->
      log (snd (openAuction "A" "pic1" "90" (Scenario.at_time 6) Scenario.w5)) "pic1"
      = log Scenario.w5 "pic1" ++ [Auction "open" "pic1" "A" "A" "90" 6]).
Proof.
  apply (reopen_iff_new_owner "A" "pic1" "90" (Scenario.at_time 6) Scenario.w5
           (Auction "close" "pic1" "B" "A" "80" 5)).
  - vm_compute. reflexivity.
  - reflexivity.
Defined.

(** An open on a core whose tail is not a [close] entry takes the first
    branch of the reopen guard. *)
Lemma openAuction_active peer name price e w tail :
  last (log w name) = Some tail ->
  type tail <> "close" ->
  openAuction peer name price e w
  = rejected w (info_opened peer name price) (error_reopen name peer).
Proof.
  intros Htail Htype. rewrite openAuction_eq, Htail.
  apply neq_true in Htype. by rewrite Htype.
Qed.

(** C6 as stated fails: no open is taken while the tail is an [open] or a
    [bid] entry. *)
Lemma open_while_active_never_accepted :
  ~ exists (peer name price : string) (e : env) (w : world) (tail : auction),
      last (log w name) = Some tail
      /\ (type tail = "open" \/ type tail = "bid")
      /\ fst (openAuction peer name price e w) = true.
Proof.
  intros (peer & name & price & e & w & tail & Htail & Htype & Hres).
  rewrite (openAuction_active _ _ _ _ _ tail) in Hres; [discriminate|done|].
  destruct Htype as [-> | ->]; discriminate.
Qed.

(** C6, amended. The reopen guard rejects every open that arrives while
    the tail is not a [close] entry: it returns [false], logs the reopen
    error, and leaves the store as it was. *)
Theorem open_while_active_rejected peer name price e w tail :
  last (log w name) = Some tail ->
  type tail <> "close" ->
  fst (openAuction peer name price e w) = false
  /\ store (snd (openAuction peer name price e w)) = store w
  /\ console (snd (openAuction peer name price e w))
     = console w ++ [info_opened peer name price; error_reopen name peer].
Proof.
  intros Htail Htype. by rewrite (openAuction_active _ _ _ _ _ tail).
Qed.

Lemma open_while_active_rejected_witness :
  fst (openAuction "A" "pic1" "90" (Scenario.at_time 5) Scenario.w4) = false
  /\ store (snd (openAuction "A" "pic1" "90" (Scenario.at_time 5) Scenario.w4))
     = store Scenario.w4
  /\ console (snd (openAuction "A" "pic1" "90" (Scenario.at_time 5) Scenario.w4))
     = console Scenario.w4 ++ [info_opened "A" "pic1" "90"; error_reopen "pic1" "A"].
Proof.
  apply (open_while_active_rejected "A" "pic1" "90" (Scenario.at_time 5) Scenario.w4
           (Auction "bid" "pic1" "A" "B" "80" 4)).
  - vm_compute. reflexivity.
  - simpl. discriminate.
Defined.

(** ** Bidding *)

(** C10. On an auction whose tail is not a [close] entry, a bid whose
    price does not convert to a number passes the price guard, as
    [NaN <= x] is false: the bid is taken and its price string is
    recorded as it came. *)
Theorem nan_bid_accepted peer name price e w tail :
  last (log w name) = Some tail ->
  type tail <> "close" ->
  JS.Number price = JS.NaN ->
  bidAuction peer name price e w
  = accepted w (info_bid peer name price)
      (Auction "bid" name (owner tail) peer price (Date_now e)).
Proof.
  intros Htail Htype Hnan. rewrite bidAuction_eq, Htail, Hnan.
  apply String.eqb_neq in Htype. by rewrite Htype.
Qed.

Lemma nan_bid_accepted_witness :
  bidAuction "B" "pic1" "a lot" (Scenario.at_time 2) Scenario.w1
  = accepted Scenario.w1 (info_bid "B" "pic1" "a lot")
      (Auction "bid" "pic1" (owner (Auction "open" "pic1" "A" "A" "75" 1)) "B" "a lot" 2).
Proof.
  apply (nan_bid_accepted "B" "pic1" "a lot" (Scenario.at_time 2) Scenario.w1
           (Auction "open" "pic1" "A" "A" "75" 1)).
  - vm_compute. reflexivity.
  - simpl. discriminate.
  - vm_compute. reflexivity.
Defined.

(** ** The scenario *)

(** C8. A opens [pic1] at 75; B's bid at 75 is turned down as not higher;
    C's bid at 75.5 and B's bid at 80 are taken; A's close at 80 is taken
    and records B as owner; A's reopen is then turned down and B's is
    taken. *)
Theorem scenario_pic1 :
  let A := Scenario.A in
  let B := Scenario.B in
  let C := Scenario.C in
  openAuction A "pic1" "75" (Scenario.at_time 1) Scenario.fresh
  = accepted Scenario.fresh (info_opened A "pic1" "75") (Auction "open" "pic1" A A "75" 1)
  /\ bidAuction B "pic1" "75" (Scenario.at_time 2) Scenario.w1
     = rejected Scenario.w1 (info_bid B "pic1" "75") (error_lower_price "75" "pic1" B "75")
  /\ bidAuction C "pic1" "75.5" (Scenario.at_time 3) Scenario.w2
     = accepted Scenario.w2 (info_bid C "pic1" "75.5") (Auction "bid" "pic1" A C "75.5" 3)
  /\ bidAuction B "pic1" "80" (Scenario.at_time 4) Scenario.w3
     = accepted Scenario.w3 (info_bid B "pic1" "80") (Auction "bid" "pic1" A B "80" 4)
  /\ closeAuction A "pic1" "80" (Scenario.at_time 5) Scenario.w4
     = accepted Scenario.w4 (info_closed A "pic1" "80") (Auction "close" "pic1" B A "80" 5)
  /\ openAuction A "pic1" "90" (Scenario.at_time 6) Scenario.w5
     = rejected Scenario.w5 (info_opened A "pic1" "90") (error_reopen "pic1" A)
  /\ openAuction B "pic1" "90" (Scenario.at_time 7) Scenario.w6
     = accepted Scenario.w6 (info_opened B "pic1" "90") (Auction "open" "pic1" B B "90" 7)
  /\ log Scenario.w7 "pic1"
     = [ Auction "open" "pic1" A A "75" 1;
         Auction "bid" "pic1" A C "75.5" 3;
         Auction "bid" "pic1" A B "80" 4;
         Auction "close" "pic1" B A "80" 5;
         Auction "open" "pic1" B B "90" 7 ].
Proof.
  intros A B C.
  repeat split;
    first [ rewrite openAuction_eq | rewrite bidAuction_eq | rewrite closeAuction_eq | idtac ];
    reflexivity.
Qed.

(** ** Rejection has no effect *)

Lemma written_propose p e w : written (snd (propose p e w)) = written w.
Proof.
  destruct p as [peer name price|peer name price|peer name price]; simpl.
  - rewrite openAuction_eq.
    destruct (last (log w name)) as [t|]; [destruct (_ || _)|]; reflexivity.
  - rewrite bidAuction_eq.
    destruct (last (log w name)) as [t|];
      [destruct (String.eqb _ _); [|destruct (JS.le _ _)]|]; reflexivity.
  - rewrite closeAuction_eq.
    destruct (last (log w name)) as [t|];
      [destruct (neq _ _); [|destruct (neq _ _)]|]; reflexivity.
Qed.

(** A proposal is either turned down, or taken with a block that the
    rules allow after the tail of its core; a block on an empty core is
    an [open] entry. *)
Lemma propose_cases p e w :
  (exists info err, propose p e w = rejected w info err)
  \/ (exists info a,
        propose p e w = accepted w info a
        /\ match last (log w (name a)) with
           | Some tail => legal_successor tail a
           | None => type a = "open"
           end).
Proof.
  destruct p as [peer name price|peer name price|peer name price]; simpl.
  - rewrite openAuction_eq.
    destruct (last (log w name)) as [t|] eqn:Htail.
    + destruct (neq (type t) "close" || neq (owner t) peer) eqn:Hg; [left; eauto|].
      apply orb_false_iff in Hg as [Ht _]. apply neq_false in Ht.
      right. do 2 eexists. split; [reflexivity|]. simpl. rewrite Htail.
      right; left. done.
    + right. do 2 eexists. split; [reflexivity|]. simpl. by rewrite Htail.
  - rewrite bidAuction_eq.
    destruct (last (log w name)) as [t|] eqn:Htail; [|left; eauto].
    destruct (String.eqb (type t) "close") eqn:Ht; [left; eauto|].
    destruct (JS.le _ _) eqn:Hle; [left; eauto|].
    apply String.eqb_neq in Ht.
    right. do 2 eexists. split; [reflexivity|]. simpl. rewrite Htail.
    right; right. done.
  - rewrite closeAuction_eq.
    destruct (last (log w name)) as [t|] eqn:Htail; [|left; eauto].
    destruct (neq (owner t) peer); [left; eauto|].
    destruct (neq _ _); [left; eauto|].
    right. do 2 eexists. split; [reflexivity|]. simpl. rewrite Htail.
    by left.
Qed.

Lemma propose_false_store p e w :
  fst (propose p e w) = false -> store (snd (propose p e w)) = store w.
Proof.
  intros H. destruct (propose_cases p e w) as [(i & err & Hr)|(i & a & Hr & _)];
    rewrite Hr in *; [reflexivity|discriminate].
Qed.

(** [processMessage] decodes, then makes the sender's proposal and drops
    its result. *)
Lemma processMessage_eq JSON_parse peer rawMessage e w :
  processMessage JSON_parse peer rawMessage e w =
  match JSON_parse rawMessage with
  | None =>
      (tt, World (store w) (console w ++ [error_message_format peer rawMessage]) (written w))
  | Some msg =>
      match proposal_of peer (msg_type msg) (msg_name msg) (msg_price msg) with
      | Some p => (tt, snd (propose p e w))
      | None => (tt, w)
      end
  end.
Proof.
  unfold processMessage, proposal_of.
  destruct (JSON_parse rawMessage) as [[t n p]|]; [|reflexivity]. simpl.
  destruct (String.eqb t "open") eqn:Ho.
  { apply String.eqb_eq in Ho. subst t. simpl. unfold bind, ret.
    by destruct (openAuction peer n p e w). }
  destruct (String.eqb t "bid") eqn:Hb.
  { apply String.eqb_eq in Hb. subst t. simpl. unfold bind, ret.
    by destruct (bidAuction peer n p e w). }
  destruct (String.eqb t "close") eqn:Hc.
  { unfold bind, ret. simpl. by destruct (closeAuction peer n p e w). }
  reflexivity.
Qed.

(** C7. A proposal that is turned down, whatever the reason, leaves the
    store as it was: no core gets a block and none changes. So does an
    inbound payload that does not decode, and so does an inbound payload
    whose proposal is turned down. *)
Theorem rejection_changes_no_log :
  (forall (p : proposal) (e : env) (w : world),
      fst (propose p e w) = false -> store (snd (propose p e w)) = store w)
  /\ (forall (JSON_parse : string -> option message) (peer rawMessage : string)
             (e : env) (w : world),
         JSON_parse rawMessage = None ->
         store (snd (processMessage JSON_parse peer rawMessage e w)) = store w)
  /\ (forall (JSON_parse : string -> option message) (peer rawMessage : string)
             (e : env) (w : world) (msg : message) (p : proposal),
         JSON_parse rawMessage = Some msg ->
         proposal_of peer (msg_type msg) (msg_name msg) (msg_price msg) = Some p ->
         fst (propose p e w) = false ->
         store (snd (processMessage JSON_parse peer rawMessage e w)) = store w).
Proof.
  split; [exact propose_false_store|]. split.
  - intros parse peer raw e w H. by rewrite processMessage_eq, H.
  - intros parse peer raw e w msg p Hmsg Hp Hres.
    rewrite processMessage_eq, Hmsg, Hp. simpl. by apply propose_false_store.
Qed.

Lemma rejection_changes_no_log_witness :
  store (snd (propose (Bid "B" "pic1" "75") (Scenario.at_time 2) Scenario.w1))
  = store Scenario.w1
  /\ store (snd (processMessage Sample.parse "B" "{type: bid}" (Scenario.at_time 2) Scenario.w1))
     = store Scenario.w1
  /\ store (snd (processMessage Sample.parse "B"
                   (Sample.stringify (Message "bid" "pic1" "75"))
                   (Scenario.at_time 2) Scenario.w1))
     = store Scenario.w1.
Proof.
  split; [|split].
  - apply (proj1 rejection_changes_no_log). vm_compute. reflexivity.
  - apply (proj1 (proj2 rejection_changes_no_log)). vm_compute. reflexivity.
  - apply (proj2 (proj2 rejection_changes_no_log) Sample.parse "B"
             (Sample.stringify (Message "bid" "pic1" "75"))
             (Scenario.at_time 2) Scenario.w1
             (Message "bid" "pic1" "75") (Bid "B" "pic1" "75")).
    + vm_compute. reflexivity.
    + reflexivity.
    + vm_compute. reflexivity.
Defined.

(** ** Broadcast *)

Lemma for_each_write peers payload e w :
  for_each peers (fun peer => peer_write peer payload) e w
  = (tt, World (store w) (console w) (written w ++ fan_out peers payload)).
Proof.
  revert w. induction peers as [|peer peers IH]; intros w; simpl.
  - unfold ret. rewrite app_nil_r. by destruct w.
  - unfold bind, peer_write at 1. rewrite IH. simpl. by rewrite <- app_assoc.
Qed.

Lemma action_of_proposal localPeer type name price :
  action_of localPeer type name price = propose <$> proposal_of localPeer type name price.
Proof.
  unfold action_of, proposal_of.
  destruct (String.eqb type "open"); [reflexivity|].
  destruct (String.eqb type "bid"); [reflexivity|].
  destruct (String.eqb type "close"); reflexivity.
Qed.

(** [processAction] splits the line, makes the local peer's proposal, and
    writes the message to every connection when the result is [true]. *)
Lemma processAction_eq localPeer JSON_stringify action e w :
  processAction localPeer JSON_stringify action e w =
  match JS.split_white_space (JS.trim action) with
  | type :: name :: price :: _ =>
      match proposal_of localPeer type name price with
      | Some p =>
          let r := propose p e w in
          (tt,
           if fst r then
             World (store (snd r)) (console (snd r))
               (written w ++
                fan_out (swarm_connections e) (JSON_stringify (Message type name price)))
           else snd r)
      | None =>
          (tt, World (store w) (console w ++ [error_invalid_action action]) (written w))
      end
  | _ => (tt, World (store w) (console w ++ [error_usage action]) (written w))
  end.
Proof.
  unfold processAction.
  destruct (JS.split_white_space (JS.trim action)) as [|t [|n [|p rest]]]; try reflexivity.
  rewrite action_of_proposal.
  destruct (proposal_of localPeer t n p) as [pr|]; [|reflexivity]. simpl.
  unfold bind. pose proof (written_propose pr e w) as Hw.
  destruct (propose pr e w) as [[] w1]; simpl in *; [|reflexivity].
  unfold connections. rewrite for_each_write. by rewrite Hw.
Qed.

(** C9. A command line that names a proposal is run as that proposal by
    the local peer, and is written to every connection exactly when the
    proposal returns [true]; any other command line writes nothing and
    changes no core. An inbound payload writes nothing to any connection,
    and one that decodes to a proposal goes through the same validation
    and append, by the sender. *)
Theorem broadcast_iff_local_success :
  (forall (localPeer : string) (JSON_stringify : message -> string)
          (action : string) (e : env) (w : world)
          (type name price : string) (rest : list string) (p : proposal),
      JS.split_white_space (JS.trim action) = type :: name :: price :: rest ->
      proposal_of localPeer type name price = Some p ->
      let w' := snd (processAction localPeer JSON_stringify action e w) in
      store w' = store (snd (propose p e w))
      /\ written w'
         = written w ++
           (if fst (propose p e w)
            then fan_out (swarm_connections e) (JSON_stringify (Message type name price))
            else []))
  /\ (forall (localPeer : string) (JSON_stringify : message -> string)
             (action : string) (e : env) (w : world),
         (forall (type name price : string) (rest : list string),
             JS.split_white_space (JS.trim action) = type :: name :: price :: rest ->
             proposal_of localPeer type name price = None) ->
         let w' := snd (processAction localPeer JSON_stringify action e w) in
         store w' = store w /\ written w' = written w)
  /\ (forall (JSON_parse : string -> option message) (peer rawMessage : string)
             (e : env) (w : world),
         written (snd (processMessage JSON_parse peer rawMessage e w)) = written w)
  /\ (forall (JSON_parse : string -> option message) (peer rawMessage : string)
             (e : env) (w : world) (msg : message) (p : proposal),
         JSON_parse rawMessage = Some msg ->
         proposal_of peer (msg_type msg) (msg_name msg) (msg_price msg) = Some p ->
         store (snd (processMessage JSON_parse peer rawMessage e w))
         = store (snd (propose p e w))).
Proof.
  split; [|split; [|split]].
  - intros lp str action e w t n p rest pr Harr Hp. simpl.
    rewrite processAction_eq, Harr, Hp. simpl.
    destruct (fst (propose pr e w)) eqn:Hres; simpl; [done|].
    by rewrite written_propose, app_nil_r.
  - intros lp str action e w Hnone. simpl. rewrite processAction_eq.
    destruct (JS.split_white_space (JS.trim action)) as [|t [|n [|p rest]]]; try done.
    by rewrite (Hnone t n p rest).
  - intros parse peer raw e w. rewrite processMessage_eq.
    destruct (parse raw) as [msg|]; [|reflexivity].
    destruct (proposal_of _ _ _ _); [|reflexivity]. apply written_propose.
  - intros parse peer raw e w msg pr Hmsg Hp.
    by rewrite processMessage_eq, Hmsg, Hp.
Qed.

Lemma broadcast_iff_local_success_witness :
  let e := Env 1 ["B"; "C"] in
  let payload := Sample.stringify (Message "open" "pic1" "75") in
  (let w' := snd (processAction "A" Sample.stringify "open pic1 75" e Scenario.fresh) in
   store w' = store (snd (propose (Open "A" "pic1" "75") e Scenario.fresh))
   /\ written w'
      = written Scenario.fresh ++
        (if fst (propose (Open "A" "pic1" "75") e Scenario.fresh)
         then fan_out (swarm_connections e) payload
         else []))
  /\ (let w' := snd (processAction "A" Sample.stringify "sell pic1 75" e Scenario.fresh) in
      store w' = store Scenario.fresh /\ written w' = written Scenario.fresh)
  /\ store (snd (processMessage Sample.parse "A" payload e Scenario.fresh))
     = store (snd (propose (Open "A" "pic1" "75") e Scenario.fresh)).
Proof.
  intros e payload. split; [|split].
  - apply (proj1 broadcast_iff_local_success "A" Sample.stringify "open pic1 75" e
             Scenario.fresh "open" "pic1" "75" [] (Open "A" "pic1" "75")).
    + vm_compute. reflexivity.
    + reflexivity.
  - apply (proj1 (proj2 broadcast_iff_local_success) "A" Sample.stringify "sell pic1 75" e
             Scenario.fresh).
    intros type name price rest H. vm_compute in H. injection H as <- <- <- <-.
    reflexivity.
  - apply (proj2 (proj2 (proj2 broadcast_iff_local_success)) Sample.parse "A" payload e
             Scenario.fresh (Message "open" "pic1" "75") (Open "A" "pic1" "75")).
    + vm_compute. reflexivity.
    + reflexivity.
Defined.

(** ** Prices along a log *)

Lemma SFcompare_antisym x y :
  SFcompare y x = CompOpp <$> SFcompare x y.
Proof.
  destruct x as [sx|sx| |sx mx ex], y as [sy|sy| |sy my ey]; simpl;
    try reflexivity;
    try (destruct sx; reflexivity);
    try (destruct sy; reflexivity);
    try (destruct sx, sy; reflexivity).
  assert (Hm : Pos.compare_cont Eq my mx = CompOpp (Pos.compare_cont Eq mx my))
    by (symmetry; apply (Pos.compare_cont_antisym mx my Eq)).
  destruct sx, sy; simpl; try reflexivity;
    rewrite (Z.compare_antisym ex ey), Hm;
    destruct (ex ?= ey); simpl; try reflexivity;
    by destruct (Pos.compare_cont Eq mx my).
Qed.

(** On numbers, the negation of [a <= b] is [b < a]. *)
Lemma le_false_lt a b :
  a <> JS.NaN -> b <> JS.NaN -> JS.le a b = false -> JS.lt b a = true.
Proof.
  unfold JS.le, JS.lt, SFleb, SFltb. intros Ha Hb. rewrite (SFcompare_antisym a b).
  destruct (SFcompare a b) as [[]|] eqn:Hc; simpl; try done.
  intros _. unfold JS.NaN in *.
  destruct a as [sa|sa| |sa ma ea], b as [sb|sb| |sb mb eb]; simpl in Hc;
    congruence || (destruct sa; discriminate) || (destruct sb; discriminate).
Qed.

Lemma legal_log_nil : legal_log [].
Proof. intros a b (l1 & l2 & H). by destruct l1. Qed.

Lemma legal_log_snoc l a :
  legal_log l ->
  (forall tail, last l = Some tail -> legal_successor tail a) ->
  legal_log (l ++ [a]).
Proof.
  intros Hl Ha x y (l1 & l2 & H).
  destruct l2 as [|z l2 _] using rev_ind.
  - change (l1 ++ [x; y]) with (l1 ++ [x] ++ [y]) in H. rewrite app_assoc in H.
    apply app_inj_tail in H as [-> ->]. apply Ha. apply last_snoc.
  - change (l1 ++ x :: y :: l2 ++ [z]) with (l1 ++ (x :: y :: l2) ++ [z]) in H.
    rewrite app_assoc in H. apply app_inj_tail in H as [-> _].
    apply Hl. by exists l1, l2.
Qed.

Lemma legal_store_ext w w' : store w' = store w -> legal_store w -> legal_store w'.
Proof. intros H Hw name. unfold log. rewrite H. apply Hw. Qed.

Lemma legal_store_start w : store w = ∅ -> legal_store w.
Proof. intros H name. unfold log. rewrite H, lookup_empty. apply legal_log_nil. Qed.

Lemma legal_store_propose p e w : legal_store w -> legal_store (snd (propose p e w)).
Proof.
  intros Hw. destruct (propose_cases p e w) as [(i & err & ->)|(i & a & -> & Ha)].
  - by apply (legal_store_ext w).
  - intros name'. destruct (decide (name a = name')) as [<-|Hne].
    + rewrite log_accepted. apply legal_log_snoc; [apply Hw|].
      intros tail Htail. by rewrite Htail in Ha.
    + rewrite log_accepted_ne by done. apply Hw.
Qed.

Lemma legal_store_run ps w : legal_store w -> legal_store (run ps w).
Proof.
  revert w. induction ps as [|[e p] ps IH]; intros w Hw; simpl; [done|].
  apply IH. by apply legal_store_propose.
Qed.

Lemma produced_legal w : produced w -> legal_store w.
Proof.
  intros (ps & w0 & H0 & ->). apply legal_store_run. by apply legal_store_start.
Qed.

(** The peer process keeps its store legal as well: its two entry points
    change the store only through a proposal. *)
Lemma legal_store_step localPeer JSON_stringify JSON_parse w w' :
  step localPeer JSON_stringify JSON_parse w w' -> legal_store w -> legal_store w'.
Proof.
  intros [action e w0|peer raw e w0] Hw.
  - rewrite processAction_eq.
    destruct (JS.split_white_space (JS.trim action)) as [|t [|n [|p rest]]];
      try by apply (legal_store_ext w0).
    destruct (proposal_of localPeer t n p) as [pr|]; [|by apply (legal_store_ext w0)].
    apply (legal_store_ext (snd (propose pr e w0))); [|by apply legal_store_propose].
    simpl. by destruct (fst (propose pr e w0)).
  - rewrite processMessage_eq.
    destruct (JSON_parse raw) as [msg|]; [|by apply (legal_store_ext w0)].
    destruct (proposal_of _ _ _ _); [by apply legal_store_propose|done].
Qed.

Lemma reachable_legal localPeer JSON_stringify JSON_parse w :
  reachable localPeer JSON_stringify JSON_parse w -> legal_store w.
Proof.
  induction 1 as [w H0|w w' _ IH Hstep].
  - by apply legal_store_start.
  - by apply (legal_store_step localPeer JSON_stringify JSON_parse w).
Qed.

Lemma non_close_prices_cons a r :
  type a <> "close" ->
  non_close_prices (a :: r) = JS.Number (price a) :: non_close_prices r.
Proof.
  intros Ha. apply String.eqb_neq in Ha.
  unfold non_close_prices, is_close. simpl. by rewrite Ha.
Qed.

(** In a legal log, a stretch without [close] entries whose prices are all
    numbers has strictly increasing prices. *)
Lemma legal_stretch_increasing l r :
  legal_log l ->
  forall l1 l2, l = l1 ++ r ++ l2 ->
  Forall numeric_bid r ->
  strictly_increasing (non_close_prices r) = true.
Proof.
  intros Hl. induction r as [|a r IH]; intros l1 l2 Heq Hr; [reflexivity|].
  apply Forall_cons in Hr as [[Ha Hna] Hr].
  rewrite non_close_prices_cons by done.
  destruct r as [|b r]; [reflexivity|].
  pose proof Hr as Hr'. apply Forall_cons in Hr' as [[Hb Hnb] _].
  rewrite non_close_prices_cons by done.
  change (JS.lt (JS.Number (price a)) (JS.Number (price b))
          && strictly_increasing (JS.Number (price b) :: non_close_prices r) = true).
  apply andb_true_iff. split.
  - assert (Hab : legal_successor a b) by (apply Hl; exists l1, (r ++ l2); by rewrite Heq).
    destruct Hab as [Hc|[[_ Hc]|(_ & _ & Hle)]]; [done|done|].
    by apply le_false_lt.
  - rewrite <- non_close_prices_cons by done.
    apply (IH (l1 ++ [a]) l2); [|done]. rewrite Heq. by rewrite <- app_assoc.
Qed.

(** C2 as stated fails: A opens [pic1] at 75, closes it unsold at 75 and,
    being the recorded owner, reopens it at 10. All three operations are
    accepted, and the prices of the entries that are not [close] entries
    are 75 then 10. *)
Lemma reopen_restarts_prices :
  produced Scenario.reopened_lower
  /\ List.map type (log Scenario.reopened_lower "pic1") = ["open"; "close"; "open"]
  /\ List.map price (log Scenario.reopened_lower "pic1") = ["75"; "75"; "10"]
  /\ non_close_prices (log Scenario.reopened_lower "pic1")
     = [JS.Number "75"; JS.Number "10"]
  /\ strictly_increasing (non_close_prices (log Scenario.reopened_lower "pic1")) = false.
Proof.
  split.
  - eexists _, Scenario.fresh. split; reflexivity.
  - repeat split; by vm_compute.
Qed.

(** In the peer process, taken one action at a time, each stretch of a
    core without [close] entry and with numeric prices has strictly
    increasing prices. *)
Lemma peer_prices_increase_within_round localPeer JSON_stringify JSON_parse w name l1 r l2 :
  reachable localPeer JSON_stringify JSON_parse w ->
  log w name = l1 ++ r ++ l2 ->
  Forall numeric_bid r ->
  strictly_increasing (non_close_prices r) = true.
Proof.
  intros Hw Heq Hr.
  apply (legal_stretch_increasing (log w name) r) with (l1 := l1) (l2 := l2); try done.
  by apply (reachable_legal localPeer JSON_stringify JSON_parse).
Qed.

(** * Further properties of the operations *)

(** A proposal is either turned down, or taken with a block that carries
    the proposal's name, the proposing peer as actor and the clock
    reading, and whose other fields are those the operation records. *)
Lemma propose_outcome p e w :
  (exists info err, propose p e w = rejected w info err)
  \/ (exists info a,
        propose p e w = accepted w info a
        /\ name a = name_of p /\ actor a = peer_of p /\ time a = Date_now e
        /\ match last (log w (name_of p)) with
           | Some tail => recorded_successor tail a
           | None => recorded_first a
           end).
Proof.
  destruct p as [peer name price|peer name price|peer name price]; simpl.
  - rewrite openAuction_eq.
    destruct (last (log w name)) as [t|] eqn:Htail.
    + destruct (neq (type t) "close" || neq (owner t) peer) eqn:Hg; [left; eauto|].
      apply orb_false_iff in Hg as [Ht Ho].
      apply neq_false in Ht. apply neq_false in Ho.
      right. do 2 eexists. split; [reflexivity|]. simpl.
      repeat split; try done. left. done.
    + right. do 2 eexists. split; [reflexivity|]. by simpl.
  - rewrite bidAuction_eq.
    destruct (last (log w name)) as [t|] eqn:Htail; [|left; eauto].
    destruct (String.eqb (type t) "close") eqn:Ht; [left; eauto|].
    destruct (JS.le _ _) eqn:Hle; [left; eauto|].
    apply String.eqb_neq in Ht.
    right. do 2 eexists. split; [reflexivity|]. simpl.
    repeat split; try done. right; left. done.
  - rewrite closeAuction_eq.
    destruct (last (log w name)) as [t|] eqn:Htail; [|left; eauto].
    destruct (neq (owner t) peer) eqn:Ho; [left; eauto|].
    destruct (neq (Block.price t) price) eqn:Hp; [left; eauto|].
    apply neq_false in Ho. apply neq_false in Hp.
    right. do 2 eexists. split; [reflexivity|]. simpl.
    repeat split; try done. right; right. done.
Qed.

(** X1. Cores are append-only, one block at a time: whatever the proposal,
    every core afterwards is the core before followed by nothing or by one
    block; a block is only added to the core the proposal names, only
    when the operation returns [true], and it carries the proposing peer
    and the clock reading. *)
Theorem propose_appends_at_most_one p e w core_name :
  exists k : list auction,
    log (snd (propose p e w)) core_name = log w core_name ++ k
    /\ (k = []
        \/ exists a, k = [a] /\ core_name = name_of p
                     /\ fst (propose p e w) = true
                     /\ actor a = peer_of p /\ time a = Date_now e).
Proof.
  destruct (propose_outcome p e w)
    as [(i & err & ->)|(i & a & -> & Hn & Ha & Ht & _)].
  - exists []. rewrite app_nil_r. split; [reflexivity|by left].
  - destruct (decide (name a = core_name)) as [<-|Hne].
    + exists [a]. rewrite log_accepted. split; [done|]. right. by exists a.
    + exists []. rewrite log_accepted_ne by done. rewrite app_nil_r. split; [done|by left].
Qed.

(** X2. The return value tells whether a block was appended: an operation
    returns [true] exactly when the store afterwards differs from the
    store before. *)
Theorem propose_true_iff_store_changed p e w :
  fst (propose p e w) = true <-> store (snd (propose p e w)) <> store w.
Proof.
  destruct (propose_outcome p e w) as [(i & err & ->)|(i & a & -> & _)].
  - split; [discriminate|]. intros H. by destruct H.
  - split; [|done]. intros _. apply store_accepted_changed.
Qed.

(** X3. Both entry points of the peer keep every core append-only as
    well: a command line, and an inbound payload, each leave every core
    as it was or add one block at its end. *)
Theorem entry_points_append_only :
  (forall (localPeer : string) (JSON_stringify : message -> string)
          (action : string) (e : env) (w : world) (core_name : string),
      exists k : list auction,
        log (snd (processAction localPeer JSON_stringify action e w)) core_name
        = log w core_name ++ k
        /\ (length k <= 1)%nat)
  /\ (forall (JSON_parse : string -> option message) (peer rawMessage : string)
             (e : env) (w : world) (core_name : string),
         exists k : list auction,
           log (snd (processMessage JSON_parse peer rawMessage e w)) core_name
           = log w core_name ++ k
           /\ (length k <= 1)%nat).
Proof.
  assert (Hp : forall p e w core_name,
             exists k, log (snd (propose p e w)) core_name = log w core_name ++ k
                       /\ (length k <= 1)%nat).
  { intros p e w cn.
    destruct (propose_outcome p e w) as [(i & err & ->)|(i & a & -> & _)].
    - exists []. rewrite app_nil_r. split; [reflexivity|simpl; lia].
    - destruct (decide (name a = cn)) as [<-|Hne].
      + exists [a]. rewrite log_accepted. split; [done|simpl; lia].
      + exists []. rewrite log_accepted_ne by done. rewrite app_nil_r.
        split; [done|simpl; lia]. }
  assert (Hsame : forall w w' cn, store w' = store w ->
               exists k : list auction,
                 log w' cn = log w cn ++ k /\ (length k <= 1)%nat).
  { intros w w' cn H. exists []. rewrite app_nil_r. unfold log. rewrite H.
    split; [done|simpl; lia]. }
  split.
  - intros lp str action e w cn. rewrite processAction_eq.
    destruct (JS.split_white_space (JS.trim action)) as [|t [|n [|p rest]]];
      [by apply Hsame..|].
    destruct (proposal_of lp t n p) as [pr|]; [|by apply Hsame].
    simpl. destruct (Hp pr e w cn) as (k & Hk & Hl). exists k. split; [|done].
    rewrite <- Hk. by destruct (fst (propose pr e w)).
  - intros parse peer raw e w cn. rewrite processMessage_eq.
    destruct (parse raw) as [msg|]; [|by apply Hsame].
    destruct (proposal_of _ _ _ _) as [pr|]; [apply Hp|by apply Hsame].
Qed.

Lemma last_nil_log w name : log w name = [] -> last (log w name) = None.
Proof. by intros ->. Qed.

(** X4. A bid or a close on an auction that has no block yet is turned
    down as not found, and changes nothing but the console. *)
Theorem missing_auction_rejected peer name price e w :
  log w name = [] ->
  bidAuction peer name price e w
  = rejected w (info_bid peer name price) (error_not_found name)
  /\ closeAuction peer name price e w
     = rejected w (info_closed peer name price) (error_not_found name).
Proof.
  intros H. apply last_nil_log in H. by rewrite bidAuction_eq, closeAuction_eq, H.
Qed.

Lemma missing_auction_rejected_witness :
  bidAuction "B" "pic2" "60" (Scenario.at_time 8) Scenario.w7
  = rejected Scenario.w7 (info_bid "B" "pic2" "60") (error_not_found "pic2")
  /\ closeAuction "B" "pic2" "60" (Scenario.at_time 8) Scenario.w7
     = rejected Scenario.w7 (info_closed "B" "pic2" "60") (error_not_found "pic2").
Proof.
  apply (missing_auction_rejected "B" "pic2" "60" (Scenario.at_time 8) Scenario.w7).
  vm_compute. reflexivity.
Defined.

(** X5. An open on an auction that has no block yet is always taken,
    whatever the peer and the price, even a price that is no number: the
    core then holds one [open] block with the peer as owner and actor. *)
Theorem first_open_accepted peer name price e w :
  log w name = [] ->
  fst (openAuction peer name price e w) = true
  /\ log (snd (openAuction peer name price e w)) name
     = [Auction "open" name peer peer price (Date_now e)].
Proof.
  intros H. rewrite openAuction_eq, (last_nil_log _ _ H). split; [reflexivity|].
  rewrite (log_accepted _ _ (Auction "open" name peer peer price (Date_now e))).
  simpl. by rewrite H.
Qed.

Lemma first_open_accepted_witness :
  fst (openAuction "C" "pic2" "free" (Scenario.at_time 8) Scenario.w7) = true
  /\ log (snd (openAuction "C" "pic2" "free" (Scenario.at_time 8) Scenario.w7)) "pic2"
     = [Auction "open" "pic2" "C" "C" "free" 8].
Proof.
  apply (first_open_accepted "C" "pic2" "free" (Scenario.at_time 8) Scenario.w7).
  vm_compute. reflexivity.
Defined.

(** X6. When a bid is taken: exactly when the auction has a tail that is
    not a [close] entry and [Number(price) <= Number(tail.price)] is
    false. Neither the bidder nor the owner plays a part, so the seller
    may bid on its own auction. *)
Theorem bid_accepted_iff peer name price e w :
  fst (bidAuction peer name price e w) = true
  <-> exists tail,
        last (log w name) = Some tail
        /\ type tail <> "close"
        /\ JS.le (JS.Number price) (JS.Number (Block.price tail)) = false.
Proof.
  rewrite bidAuction_eq. destruct (last (log w name)) as [t|].
  - destruct (String.eqb (type t) "close") eqn:Ht.
    + apply String.eqb_eq in Ht. split; [discriminate|].
      intros (t' & [= <-] & Hn & _). done.
    + apply String.eqb_neq in Ht. destruct (JS.le _ _) eqn:Hle.
      * split; [discriminate|]. intros (t' & [= <-] & _ & Hf). congruence.
      * split; [|done]. intros _. by exists t.
  - split; [discriminate|]. by intros (t' & [=] & _).
Qed.

(** X7. When a close is taken, for a proposed price and a recorded price
    that are both strings, on which [!=] is string inequality: exactly
    when the block the close reads has the closing peer in its owner
    field and the proposed string as price. The type of that block plays
    no part. *)
Theorem close_accepted_iff peer name price e w :
  fst (closeAuction peer name price e w) = true
  <-> exists tail,
        last (log w name) = Some tail
        /\ owner tail = peer
        /\ Block.price tail = price.
Proof.
  rewrite closeAuction_eq. destruct (last (log w name)) as [t|].
  - destruct (neq (owner t) peer) eqn:Ho.
    + apply neq_true in Ho. split; [discriminate|].
      intros (t' & [= <-] & Hn & _). done.
    + apply neq_false in Ho. destruct (neq (Block.price t) price) eqn:Hp.
      * apply neq_true in Hp. split; [discriminate|].
        intros (t' & [= <-] & _ & Hf). done.
      * apply neq_false in Hp. split; [|done]. intros _. by exists t.
  - split; [discriminate|]. by intros (t' & [=] & _).
Qed.

(** X8. When an open is taken: exactly when the auction has no block yet,
    or its tail is a [close] entry whose owner field is the opening
    peer. The price plays no part. *)
Theorem open_accepted_iff peer name price e w :
  fst (openAuction peer name price e w) = true
  <-> log w name = []
      \/ exists tail,
           last (log w name) = Some tail
           /\ type tail = "close"
           /\ owner tail = peer.
Proof.
  rewrite openAuction_eq. destruct (last (log w name)) as [t|] eqn:Htail.
  - destruct (neq (type t) "close") eqn:Ht; simpl.
    + apply neq_true in Ht. split; [discriminate|].
      intros [H|(t' & [= <-] & Hc & _)]; [by rewrite H in Htail|done].
    + apply neq_false in Ht. destruct (neq (owner t) peer) eqn:Ho.
      * apply neq_true in Ho. split; [discriminate|].
        intros [H|(t' & [= <-] & _ & Hc)]; [by rewrite H in Htail|done].
      * apply neq_false in Ho. split; [|done]. intros _. right. by exists t.
  - split; [|done]. intros _. left. by apply last_None.
Qed.

(** X9. Which error a proposal on an existing auction gets. A bid on a
    closed auction is turned down as closed, whatever its price; a bid
    that is not higher gets the lower-price error. A close by a peer
    other than the tail's owner gets the not-owner error even at the
    right price; a close by the owner at another price string gets the
    different-price error. *)
Theorem rejection_reasons peer name price e w tail :
  last (log w name) = Some tail ->
  (type tail = "close" ->
   bidAuction peer name price e w
   = rejected w (info_bid peer name price) (error_closed name))
  /\ (type tail <> "close" ->
      JS.le (JS.Number price) (JS.Number (Block.price tail)) = true ->
      bidAuction peer name price e w
      = rejected w (info_bid peer name price)
          (error_lower_price price name peer (Block.price tail)))
  /\ (owner tail <> peer ->
      closeAuction peer name price e w
      = rejected w (info_closed peer name price) (error_not_owner name peer))
  /\ (owner tail = peer -> Block.price tail <> price ->
      closeAuction peer name price e w
      = rejected w (info_closed peer name price)
          (error_different_price name price peer (Block.price tail))).
Proof.
  intros Htail. rewrite bidAuction_eq, closeAuction_eq, Htail. repeat split.
  - intros Ht. apply String.eqb_eq in Ht. by rewrite Ht.
  - intros Ht Hle. apply String.eqb_neq in Ht. by rewrite Ht, Hle.
  - intros Ho. apply neq_true in Ho. by rewrite Ho.
  - intros Ho Hp. apply neq_false in Ho. apply neq_true in Hp. by rewrite Ho, Hp.
Qed.

Lemma rejection_reasons_witness :
  bidAuction "C" "pic1" "100" (Scenario.at_time 6) Scenario.w5
  = rejected Scenario.w5 (info_bid "C" "pic1" "100") (error_closed "pic1")
  /\ closeAuction "C" "pic1" "80" (Scenario.at_time 6) Scenario.w5
     = rejected Scenario.w5 (info_closed "C" "pic1" "80") (error_not_owner "pic1" "C").
Proof.
  pose proof (rejection_reasons "C" "pic1" "100" (Scenario.at_time 6) Scenario.w5
                (Auction "close" "pic1" "B" "A" "80" 5)) as H1.
  pose proof (rejection_reasons "C" "pic1" "80" (Scenario.at_time 6) Scenario.w5
                (Auction "close" "pic1" "B" "A" "80" 5)) as H2.
  split.
  - apply H1; [vm_compute|]; reflexivity.
  - apply H2; [vm_compute; reflexivity|]. simpl. discriminate.
Defined.

(** ** What produced logs look like *)

Lemma recorded_log_nil core_name : recorded_log core_name [].
Proof.
  split; [constructor|]. split; [discriminate|].
  intros a b (l1 & l2 & H). by destruct l1.
Qed.

Lemma recorded_log_snoc core_name l a :
  recorded_log core_name l ->
  name a = core_name ->
  match last l with
  | Some tail => recorded_successor tail a
  | None => recorded_first a
  end ->
  recorded_log core_name (l ++ [a]).
Proof.
  intros (Hn & Hh & Hc) Ha Hlast. split; [|split].
  - apply Forall_app. split; [done|]. by constructor.
  - intros x Hx. destruct l as [|y l]; simpl in *.
    + by injection Hx as <-.
    + apply Hh. done.
  - intros x y (l1 & l2 & H).
    destruct l2 as [|z l2 _] using rev_ind.
    + change (l1 ++ [x; y]) with (l1 ++ [x] ++ [y]) in H. rewrite app_assoc in H.
      apply app_inj_tail in H as [-> ->]. by rewrite last_snoc in Hlast.
    + change (l1 ++ x :: y :: l2 ++ [z]) with (l1 ++ (x :: y :: l2) ++ [z]) in H.
      rewrite app_assoc in H. apply app_inj_tail in H as [-> _].
      apply Hc. by exists l1, l2.
Qed.

Lemma recorded_store_ext w w' : store w' = store w -> recorded_store w -> recorded_store w'.
Proof. intros H Hw cn. unfold log. rewrite H. apply Hw. Qed.

Lemma recorded_store_start w : store w = ∅ -> recorded_store w.
Proof. intros H cn. unfold log. rewrite H, lookup_empty. apply recorded_log_nil. Qed.

Lemma recorded_store_propose p e w :
  recorded_store w -> recorded_store (snd (propose p e w)).
Proof.
  intros Hw. destruct (propose_outcome p e w)
    as [(i & err & ->)|(i & a & -> & Hn & _ & _ & Ha)].
  - by apply (recorded_store_ext w).
  - intros cn. destruct (decide (name a = cn)) as [<-|Hne].
    + rewrite log_accepted. apply recorded_log_snoc; [apply Hw|done|].
      by rewrite Hn.
    + rewrite log_accepted_ne by done. apply Hw.
Qed.

Lemma recorded_store_run ps w : recorded_store w -> recorded_store (run ps w).
Proof.
  revert w. induction ps as [|[e p] ps IH]; intros w Hw; simpl; [done|].
  apply IH. by apply recorded_store_propose.
Qed.

Lemma produced_recorded w : produced w -> recorded_store w.
Proof.
  intros (ps & w0 & H0 & ->). apply recorded_store_run. by apply recorded_store_start.
Qed.

Lemma reachable_recorded localPeer JSON_stringify JSON_parse w :
  reachable localPeer JSON_stringify JSON_parse w -> recorded_store w.
Proof.
  induction 1 as [w H0|w w' _ IH Hstep]; [by apply recorded_store_start|].
  destruct Hstep as [action e w0|peer raw e w0].
  - rewrite processAction_eq.
    destruct (JS.split_white_space (JS.trim action)) as [|t [|n [|p rest]]];
      try by apply (recorded_store_ext w0).
    destruct (proposal_of localPeer t n p) as [pr|]; [|by apply (recorded_store_ext w0)].
    apply (recorded_store_ext (snd (propose pr e w0))); [|by apply recorded_store_propose].
    simpl. by destruct (fst (propose pr e w0)).
  - rewrite processMessage_eq.
    destruct (JSON_parse raw) as [msg|]; [|by apply (recorded_store_ext w0)].
    destruct (proposal_of _ _ _ _); [by apply recorded_store_propose|done].
Qed.

(** An entry of a list is its head or directly follows another entry. *)
Lemma head_or_consecutive (l : list auction) b :
  b ∈ l -> head l = Some b \/ exists a, consecutive l a b.
Proof.
  intros Hb. apply list_elem_of_split in Hb as (l1 & l2 & ->).
  destruct l1 as [|x l1 _] using rev_ind; [by left|].
  right. exists x, l1, l2. by rewrite <- app_assoc.
Qed.

Lemma recorded_successor_type a b :
  recorded_successor a b -> type b = "open" \/ type b = "bid" \/ type b = "close".
Proof. intros [(H & _)|[(H & _)|(H & _)]]; auto. Qed.

(** X10. In the peer process every block sits in the core of its own
    name, is an [open], a [bid] or a [close] entry, and the first block
    of a core is an [open] entry whose owner is its actor. *)
Theorem reachable_blocks_well_formed localPeer JSON_stringify JSON_parse w core_name :
  reachable localPeer JSON_stringify JSON_parse w ->
  Forall (fun a => name a = core_name
                   /\ (type a = "open" \/ type a = "bid" \/ type a = "close"))
         (log w core_name)
  /\ (forall a, head (log w core_name) = Some a -> type a = "open" /\ owner a = actor a).
Proof.
  intros Hw. apply reachable_recorded in Hw. destruct (Hw core_name) as (Hn & Hh & Hc).
  split; [|exact Hh].
  apply Forall_forall. intros b Hb. split.
  - by apply (proj1 (Forall_forall _ _) Hn).
  - destruct (head_or_consecutive _ _ Hb) as [H|(a & H)].
    + left. by apply Hh.
    + by apply (recorded_successor_type a), Hc.
Qed.

Lemma reachable_after_scenario :
  reachable "A" Sample.stringify Sample.parse
    (snd (processMessage Sample.parse "B" (Sample.stringify (Message "bid" "pic1" "80"))
            (Scenario.at_time 2)
            (snd (processAction "A" Sample.stringify "open pic1 75" (Scenario.at_time 1)
                    Scenario.fresh)))).
Proof.
  apply (reachable_step "A" Sample.stringify Sample.parse
           (snd (processAction "A" Sample.stringify "open pic1 75" (Scenario.at_time 1)
                   Scenario.fresh))).
  - apply (reachable_step "A" Sample.stringify Sample.parse Scenario.fresh).
    + by apply reachable_start.
    + apply step_action.
  - apply step_message.
Qed.

Lemma reachable_blocks_well_formed_witness :
  let w := snd (processMessage Sample.parse "B"
                  (Sample.stringify (Message "bid" "pic1" "80")) (Scenario.at_time 2)
                  (snd (processAction "A" Sample.stringify "open pic1 75"
                          (Scenario.at_time 1) Scenario.fresh))) in
  Forall (fun a => name a = "pic1"
                   /\ (type a = "open" \/ type a = "bid" \/ type a = "close"))
         (log w "pic1")
  /\ (forall a, head (log w "pic1") = Some a -> type a = "open" /\ owner a = actor a).
Proof.
  intros w.
  apply (reachable_blocks_well_formed "A" Sample.stringify Sample.parse w "pic1").
  apply reachable_after_scenario.
Defined.

Lemma recorded_open_owner core_name l o :
  recorded_log core_name l -> o ∈ l -> type o = "open" -> owner o = actor o.
Proof.
  intros (_ & Hh & Hc) Ho Ht.
  destruct (head_or_consecutive _ _ Ho) as [H|(a & H)].
  - by apply Hh.
  - destruct (Hc a o H) as [(_ & _ & _ & H1)|[(H1 & _)|(H1 & _)]]; congruence.
Qed.

(** In a recorded log, the blocks that follow [x] up to the next [close]
    entry are bids that carry the owner field of [x]. *)
Lemma recorded_stretch_owner core_name l r :
  recorded_log core_name l ->
  forall l1 x l2,
    l = l1 ++ x :: r ++ l2 ->
    type x <> "close" ->
    Forall (fun a => type a <> "close") r ->
    Forall (fun a => type a = "bid" /\ owner a = owner x) r.
Proof.
  intros Hl. induction r as [|b r IH]; intros l1 x l2 Heq Hx Hr; [constructor|].
  apply Forall_cons in Hr as [Hb Hr].
  assert (Hxb : recorded_successor x b).
  { apply (proj2 (proj2 Hl)). exists l1, (r ++ l2). by rewrite Heq. }
  destruct Hxb as [(_ & Hc & _)|[(Ht & _ & Ho & _)|(Hc & _)]]; [done| |done].
  constructor; [done|].
  assert (Hb' : type b <> "close") by (rewrite Ht; discriminate).
  specialize (IH (l1 ++ [x]) b l2).
  rewrite <- app_assoc in IH. specialize (IH Heq Hb' Hr).
  eapply Forall_impl; [exact IH|]. simpl. intros a [Ha1 Ha2]. split; congruence.
Qed.

(** ** Order of numbers *)

Lemma le_refl x : x <> JS.NaN -> JS.le x x = true.
Proof.
  unfold JS.le, SFleb, JS.NaN. intros Hx.
  destruct x as [s|s| |s m e]; simpl; try done.
  - by destruct s.
  - rewrite Z.compare_refl, Pos.compare_cont_refl. by destruct s.
Qed.

Ltac compare_cases :=
  repeat match goal with
         | |- context [(?a ?= ?b)%Z] => destruct (Z.compare_spec a b)
         | |- context [(?a ?= ?b)%positive] => destruct (Pos.compare_spec a b)
         end.

Lemma lt_le_trans x y z : JS.lt x y = true -> JS.le y z = true -> JS.le x z = true.
Proof.
  unfold JS.lt, JS.le, SFltb, SFleb.
  destruct x as [sx|sx| |sx mx ex], y as [sy|sy| |sy my ey], z as [sz|sz| |sz mz ez];
    simpl; try done;
    repeat match goal with s : bool |- _ => destruct s end; simpl; try done;
    change (Pos.compare_cont Eq) with Pos.compare;
    compare_cases; simpl; try done; subst; lia.
Qed.

(** In a strictly increasing list of numbers, no element is above the
    last. *)
Lemma increasing_le_last xs t :
  strictly_increasing xs = true ->
  Forall (fun x => x <> JS.NaN) xs ->
  last xs = Some t ->
  Forall (fun x => JS.le x t = true) xs.
Proof.
  induction xs as [|x xs IH]; intros Hinc Hn Hlast; [constructor|].
  apply Forall_cons in Hn as [Hx Hn].
  destruct xs as [|y xs].
  - injection Hlast as <-. constructor; [by apply le_refl|constructor].
  - simpl in Hinc. apply andb_true_iff in Hinc as [Hxy Hinc].
    specialize (IH Hinc Hn Hlast).
    constructor; [|done].
    apply Forall_cons in IH as [Hy _]. by apply (lt_le_trans x y t).
Qed.

Lemma non_close_prices_stretch r :
  Forall (fun a => type a <> "close") r ->
  non_close_prices r = List.map (fun a => JS.Number (price a)) r.
Proof.
  induction r as [|a r IH]; intros Hr; [reflexivity|].
  apply Forall_cons in Hr as [Ha Hr].
  rewrite non_close_prices_cons by done. simpl. by rewrite IH.
Qed.

(** ** Sequences of operations *)



(** ** Replicas *)

Lemma same_history_last w1 w2 core_name :
  same_history w1 w2 ->
  untimed <$> last (log w1 core_name) = untimed <$> last (log w2 core_name).
Proof.
  intros H. rewrite <- !fmap_last. exact (f_equal last (H core_name)).
Qed.

Lemma same_history_ext w1 w2 w1' w2' :
  store w1' = store w1 -> store w2' = store w2 ->
  same_history w1 w2 -> same_history w1' w2'.
Proof. intros H1 H2 H cn. unfold log. rewrite H1, H2. apply H. Qed.

Lemma same_history_accepted w1 w2 i1 i2 a1 a2 :
  same_history w1 w2 ->
  untimed a1 = untimed a2 ->
  same_history (snd (accepted w1 i1 a1)) (snd (accepted w2 i2 a2)).
Proof.
  intros H Ha cn.
  assert (Hn : name a1 = name a2) by (by injection Ha).
  destruct (decide (name a1 = cn)) as [<-|Hne].
  - rewrite log_accepted. rewrite Hn at 1 2. rewrite log_accepted.
    rewrite !map_app. simpl. rewrite Ha. f_equal. rewrite <- Hn. apply H.
  - rewrite !log_accepted_ne by congruence. apply H.
Qed.

Lemma same_history_decision p e1 e2 w1 w2 :
  same_history w1 w2 ->
  fst (propose p e1 w1) = fst (propose p e2 w2)
  /\ same_history (snd (propose p e1 w1)) (snd (propose p e2 w2)).
Proof.
  intros H.
  assert (Hrej : forall i1 r1 i2 r2,
             same_history (snd (rejected w1 i1 r1)) (snd (rejected w2 i2 r2)))
    by (intros; by apply (same_history_ext w1 w2)).
  destruct p as [peer name price|peer name price|peer name price]; simpl;
    pose proof (same_history_last w1 w2 name H) as Hlast.
  - rewrite !openAuction_eq.
    destruct (last (log w1 name)) as [t1|], (last (log w2 name)) as [t2|];
      try discriminate; simpl in Hlast.
    + injection Hlast as Ht _ Ho _ _. rewrite Ht, Ho.
      destruct (_ || _); [split; [done|apply Hrej]|].
      split; [done|]. by apply same_history_accepted.
    + split; [done|]. by apply same_history_accepted.
  - rewrite !bidAuction_eq.
    destruct (last (log w1 name)) as [t1|], (last (log w2 name)) as [t2|];
      try discriminate; simpl in Hlast; [|split; [done|apply Hrej]].
    injection Hlast as Ht _ Ho _ Hp. rewrite Ht, Hp.
    destruct (String.eqb _ _); [split; [done|apply Hrej]|].
    destruct (JS.le _ _); [split; [done|apply Hrej]|].
    split; [done|]. apply same_history_accepted; [done|]. unfold untimed; simpl.
    by rewrite Ho.
  - rewrite !closeAuction_eq.
    destruct (last (log w1 name)) as [t1|], (last (log w2 name)) as [t2|];
      try discriminate; simpl in Hlast; [|split; [done|apply Hrej]].
    injection Hlast as _ _ Ho Ha Hp. rewrite Ho, Hp.
    destruct (neq (owner t2) peer); [split; [done|apply Hrej]|].
    destruct (neq _ _); [split; [done|apply Hrej]|].
    split; [done|]. apply same_history_accepted; [done|]. unfold untimed; simpl.
    by rewrite Ha.
Qed.

(** X18. Validation does not look at timestamps, at the console or at
    what was sent: two peers whose cores agree up to the times of the
    appends give the same answer to the same proposal, whatever their
    clocks, and their cores agree in the same way afterwards. *)
Theorem replicas_agree p e1 e2 w1 w2 :
  same_history w1 w2 ->
  fst (propose p e1 w1) = fst (propose p e2 w2)
  /\ same_history (snd (propose p e1 w1)) (snd (propose p e2 w2)).
Proof. apply same_history_decision. Qed.

Lemma replicas_agree_witness :
  let w1 := Scenario.fresh in
  let w2 := World ∅ [info_opened "C" "pic9" "1"] [("B", "hello")] in
  fst (propose (Open "A" "pic1" "75") (Scenario.at_time 1) w1)
  = fst (propose (Open "A" "pic1" "75") (Scenario.at_time 2) w2)
  /\ same_history (snd (propose (Open "A" "pic1" "75") (Scenario.at_time 1) w1))
       (snd (propose (Open "A" "pic1" "75") (Scenario.at_time 2) w2)).
Proof.
  intros w1 w2.
  apply (replicas_agree (Open "A" "pic1" "75") (Scenario.at_time 1) (Scenario.at_time 2) w1 w2).
  intros cn. reflexivity.
Defined.

(** X19. Gossip keeps replicas in step: when a command line succeeds at
    the local peer, the payload it writes to each connection, once
    decoded by a receiver whose cores agree with the sender's up to
    timestamps, is taken there as the sender's proposal, and the cores of
    the two peers agree up to timestamps afterwards. *)
Theorem gossip_keeps_replicas_in_step
    (localPeer : string) (JSON_stringify : message -> string)
    (JSON_parse : string -> option message)
    (action : string) (e1 e2 : env) (w1 w2 : world)
    (type name price : string) (rest : list string) (p : proposal) :
  same_history w1 w2 ->
  JS.split_white_space (JS.trim action) = type :: name :: price :: rest ->
  proposal_of localPeer type name price = Some p ->
  fst (propose p e1 w1) = true ->
  JSON_parse (JSON_stringify (Message type name price)) = Some (Message type name price) ->
  let payload := JSON_stringify (Message type name price) in
  let sender := snd (processAction localPeer JSON_stringify action e1 w1) in
  let receiver := snd (processMessage JSON_parse localPeer payload e2 w2) in
  written sender = written w1 ++ fan_out (swarm_connections e1) payload
  /\ store receiver <> store w2
  /\ same_history sender receiver.
Proof.
  intros H Harr Hp Hres Hcodec payload sender receiver.
  unfold sender, receiver, payload.
  rewrite processAction_eq, Harr, Hp, processMessage_eq, Hcodec. simpl.
  rewrite Hp, Hres. simpl.
  destruct (same_history_decision p e1 e2 w1 w2 H) as [Hfst Hsame].
  split; [done|]. split.
  - destruct (propose_outcome p e2 w2) as [(i & err & Hr)|(i & a & Hr & _)];
      rewrite Hr in *; [rewrite Hres in Hfst; discriminate|].
    apply store_accepted_changed.
  - by apply (same_history_ext (snd (propose p e1 w1)) (snd (propose p e2 w2))).
Qed.

Lemma gossip_keeps_replicas_in_step_witness :
  let e1 := Env 1 ["B"; "C"] in
  let e2 := Env 2 ["A"; "C"] in
  let payload := Sample.stringify (Message "open" "pic1" "75") in
  let sender := snd (processAction "A" Sample.stringify "open pic1 75" e1 Scenario.fresh) in
  let receiver := snd (processMessage Sample.parse "A" payload e2 Scenario.fresh) in
  written sender = written Scenario.fresh ++ fan_out (swarm_connections e1) payload
  /\ store receiver <> store Scenario.fresh
  /\ same_history sender receiver.
Proof.
  intros e1 e2.
  apply (gossip_keeps_replicas_in_step "A" Sample.stringify Sample.parse "open pic1 75"
           e1 e2 Scenario.fresh Scenario.fresh "open" "pic1" "75" []
           (Open "A" "pic1" "75")).
  - intros cn. reflexivity.
  - vm_compute. reflexivity.
  - reflexivity.
  - vm_compute. reflexivity.
  - vm_compute. reflexivity.
Defined.

(** ** The connection counter *)

Lemma no_repeat_snoc l x :
  Swarm.no_repeat l -> last l <> Some x -> Swarm.no_repeat (l ++ [x]).
Proof.
  induction l as [|a l IH]; intros Hl Hx; [done|].
  destruct l as [|b l]; simpl in *.
  - split; [congruence|done].
  - destruct Hl as [Hab Hl]. split; [done|]. by apply IH.
Qed.

Lemma peersCount_on_update size c : Swarm.peersCount (Swarm.on_update size c) = size.
Proof.
  unfold Swarm.on_update. destruct (Nat.eqb (Swarm.peersCount c) size) eqn:H; simpl; [|done].
  by apply Nat.eqb_eq in H.
Qed.

Lemma updates_snoc sizes size c :
  Swarm.updates (sizes ++ [size]) c = Swarm.on_update size (Swarm.updates sizes c).
Proof. unfold Swarm.updates. by rewrite fold_left_app. Qed.

(** X20. The connection counter: after any sequence of [update] events
    [peersCount] is the size given by the last event (0 before the first
    one). A line is logged only when the count changes: no two lines in a
    row show the same count, the first line never shows 0, and the last
    line, if any, shows the current count. *)
Theorem counter_tracks_connections (sizes : list nat) :
  let c := Swarm.updates sizes Swarm.start in
  Swarm.peersCount c = List.last sizes 0%nat
  /\ Swarm.no_repeat (Swarm.logged c)
  /\ head (Swarm.logged c) <> Some 0%nat
  /\ ((Swarm.logged c = [] /\ Swarm.peersCount c = 0%nat)
      \/ last (Swarm.logged c) = Some (Swarm.peersCount c)).
Proof.
  cbv zeta. induction sizes as [|size sizes IH] using rev_ind.
  - repeat split; try done. by left.
  - rewrite updates_snoc, List.last_last. destruct IH as (Hc & Hn & Hh & Hl).
    split; [apply peersCount_on_update|].
    unfold Swarm.on_update.
    destruct (Nat.eqb _ size) eqn:Heq; simpl.
    + done.
    + apply Nat.eqb_neq in Heq. split; [|split].
      * apply no_repeat_snoc; [done|].
        destruct Hl as [[Hlog _]|Hl]; [by rewrite Hlog|].
        rewrite Hl. congruence.
      * destruct Hl as [[Hlog H0]|Hl].
        -- rewrite Hlog. simpl. congruence.
        -- destruct (Swarm.logged _) as [|x l]; [done|]. done.
      * right. apply last_snoc.
Qed.

(** ** Words of a command line *)

Lemma string_of_list_ascii_app l1 l2 :
  string_of_list_ascii (l1 ++ l2)
  = String.append (string_of_list_ascii l1) (string_of_list_ascii l2).
Proof.
  induction l1 as [|c l1 IH]; [done|].
  change (String c (string_of_list_ascii (l1 ++ l2))
          = String c (String.append (string_of_list_ascii l1) (string_of_list_ascii l2))).
  by f_equal.
Qed.

Lemma drop_string_of_list n l :
  JS.drop_string n (string_of_list_ascii l) = string_of_list_ascii (drop n l).
Proof.
  revert l. induction n as [|n IH]; intros [|c l]; simpl; auto.
Qed.

Lemma append_empty_r s : String.append s "" = s.
Proof.
  induction s as [|c s IH]; [done|].
  change (String c (String.append s "") = String c s). by f_equal.
Qed.

Lemma prefix_append w u s :
  String.prefix w u = true -> String.prefix w (String.append u s) = true.
Proof.
  revert u. induction w as [|c w IH].
  - intros u _. by destruct (String.append u s).
  - intros [|d u]; simpl; [done|]. destruct (ascii_dec c d); [apply IH|done].
Qed.

Lemma after_white_space_append u s :
  JS.after_white_space (String.append u s) = None -> JS.after_white_space u = None.
Proof.
  unfold JS.after_white_space.
  destruct (List.find _ JS.white_space) as [w|] eqn:Hf; [discriminate|]. intros _.
  destruct (List.find (fun w => String.prefix w u) JS.white_space) as [w|] eqn:Hu; [|done].
  apply find_some in Hu as [Hin Hw].
  apply (find_none _ _ Hf) in Hin. simpl in Hin.
  by rewrite (prefix_append w u s Hw) in Hin.
Qed.

Lemma append_snoc l c s :
  String.append (string_of_list_ascii (l ++ [c])) s
  = String.append (string_of_list_ascii l) (String c s).
Proof.
  induction l as [|d l IH]; [done|].
  change (String d (String.append (string_of_list_ascii (l ++ [c])) s)
          = String d (String.append (string_of_list_ascii l) (String c s))).
  by f_equal.
Qed.

(** Every word that [split_fuel] yields is a word, as long as no white
    space starts inside the run read so far. *)
Lemma split_fuel_words fuel s cur :
  (forall n, (n < length cur)%nat ->
     JS.after_white_space
       (String.append (string_of_list_ascii (drop n (List.rev cur))) s) = None) ->
  Forall word (JS.split_fuel fuel s cur).
Proof.
  revert s cur. induction fuel as [|fuel IH]; intros s cur Hcur; [constructor|].
  assert (Hword : forall s', (s = "" \/ JS.after_white_space s = Some s') ->
            cur <> [] -> word (string_of_list_ascii (List.rev cur))).
  { intros s' Hs Hne. split.
    - destruct cur as [|c cur]; [done|]. simpl. rewrite string_of_list_ascii_app.
      destruct (string_of_list_ascii (List.rev cur)); discriminate.
    - intros n. rewrite drop_string_of_list.
      destruct (decide (n < length cur)%nat) as [Hn|Hn].
      + apply (after_white_space_append _ s). by apply Hcur.
      + rewrite drop_ge; [done|]. rewrite length_rev. lia. }
  simpl. destruct s as [|c s'].
  - destruct cur as [|c cur]; [constructor|].
    constructor; [|constructor]. apply (Hword ""); [by left|done].
  - destruct (JS.after_white_space (String c s')) as [rest|] eqn:Hws.
    + assert (Hnil : Forall word (JS.split_fuel fuel rest []))
        by (apply IH; simpl; intros n Hn; lia).
      destruct cur as [|d cur]; [done|].
      constructor; [|done]. apply (Hword rest); [by right|done].
    + apply IH. intros n Hn. simpl in Hn.
      simpl. rewrite drop_app_le by (rewrite length_rev; lia).
      rewrite append_snoc.
      destruct (decide (n < length cur)%nat) as [Hlt|Hge].
      * by apply Hcur.
      * rewrite drop_ge by (rewrite length_rev; lia). done.
Qed.

Lemma split_white_space_words s :
  JS.split_white_space s = [""] \/ Forall word (JS.split_white_space s).
Proof.
  unfold JS.split_white_space.
  pose proof (split_fuel_words (S (String.length s)) s []) as H.
  destruct (JS.split_fuel _ s []) as [|t arr]; [by left|].
  right. apply H. simpl. intros n Hn. lia.
Qed.

(** ** The fuel of [trim] and [split] is enough *)

Lemma white_space_not_empty : Forall (fun w => w <> "") JS.white_space.
Proof. repeat constructor; discriminate. Qed.

Lemma length_drop_string n s :
  String.length (JS.drop_string n s) = (String.length s - n)%nat.
Proof.
  revert s. induction n as [|n IH]; intros [|c s]; simpl; auto.
Qed.

Lemma prefix_length w s : String.prefix w s = true -> (String.length w <= String.length s)%nat.
Proof.
  revert s. induction w as [|c w IH]; intros s H; simpl; [lia|].
  destruct s as [|d s]; simpl in H; [done|].
  destruct (ascii_dec c d); [|done]. apply IH in H. simpl. lia.
Qed.

(** A white space character at the head of [s] takes at least one byte. *)
Lemma after_white_space_shorter s rest :
  JS.after_white_space s = Some rest -> (String.length rest < String.length s)%nat.
Proof.
  unfold JS.after_white_space.
  destruct (List.find _ JS.white_space) as [w|] eqn:Hf; [|done].
  intros [= <-]. apply find_some in Hf as [Hin Hp].
  apply prefix_length in Hp. rewrite length_drop_string.
  assert (Hw : w <> "").
  { apply (proj1 (List.Forall_forall _ _) white_space_not_empty). done. }
  destruct w as [|c w]; [done|]. simpl in *. lia.
Qed.

(** [trimStart] stops because no white space is left, not because the
    fuel ran out. *)
Lemma trimStart_fuel_done fuel s :
  (String.length s <= fuel)%nat ->
  JS.after_white_space (JS.trimStart_fuel fuel s) = None.
Proof.
  revert s. induction fuel as [|fuel IH]; intros s Hs; simpl.
  - destruct s; [done|simpl in Hs; lia].
  - destruct (JS.after_white_space s) as [rest|] eqn:Hws; [|done].
    apply IH. apply after_white_space_shorter in Hws. lia.
Qed.

Lemma trimStart_no_white_space s : JS.after_white_space (JS.trimStart s) = None.
Proof. by apply trimStart_fuel_done. Qed.

(** [split_fuel] reads its whole input when given one unit of fuel more
    than the input is long: more fuel gives the same words. *)
Lemma split_fuel_enough fuel fuel' s cur :
  (String.length s < fuel)%nat -> (String.length s < fuel')%nat ->
  JS.split_fuel fuel s cur = JS.split_fuel fuel' s cur.
Proof.
  revert fuel' s cur. induction fuel as [|fuel IH]; intros fuel' s cur H H'; [lia|].
  destruct fuel' as [|fuel']; [lia|]. simpl.
  destruct s as [|c s']; [done|].
  destruct (JS.after_white_space (String c s')) as [rest|] eqn:Hws.
  - apply after_white_space_shorter in Hws.
    rewrite (IH fuel' rest []) by lia. done.
  - simpl in H, H'. apply IH; lia.
Qed.

(** * Operations that interleave *)

(** An operation that nothing interrupts is called and goes on at once,
    with the tail as the block it read. *)
Lemma propose_uninterrupted p e w :
  propose p e w = resume p (last (log w (name_of p))) e (snd (announce p e w)).
Proof. destruct p; reflexivity. Qed.

Lemma interleave_uninterrupted p e w :
  interleave [(e, Call p); (e, Resume p (length (log w (name_of p))))] w
  = snd (propose p e w).
Proof.
  rewrite propose_uninterrupted. simpl. unfold bind, block_read, ret.
  assert (Hlog : log (snd (announce p e w)) (name_of p) = log w (name_of p))
    by (destruct p; reflexivity).
  rewrite Hlog, firstn_all. by destruct (resume _ _ _ _).
Qed.

Lemma log_of_store w w' core_name l :
  store w' = <[core_name := l]> (store w) -> log w' core_name = l.
Proof. intros H. unfold log. by rewrite H, lookup_insert_eq. Qed.

Lemma log_of_store_ne w w' core_name core_name' l :
  store w' = <[core_name := l]> (store w) -> core_name <> core_name' ->
  log w' core_name' = log w core_name'.
Proof. intros H Hne. unfold log. by rewrite H, lookup_insert_ne. Qed.

Lemma log_same_store w w' core_name : store w' = store w -> log w' core_name = log w core_name.
Proof. intros H. unfold log. by rewrite H. Qed.

(** An operation that goes on from the block it read is turned down and
    leaves the store as it is, or appends one block whose fields are
    those of the proposal and of the block read. *)
Lemma resume_outcome p lastAction e w :
  (fst (resume p lastAction e w) = false
   /\ store (snd (resume p lastAction e w)) = store w)
  \/ (exists a,
        fst (resume p lastAction e w) = true
        /\ store (snd (resume p lastAction e w))
           = <[name_of p := log w (name_of p) ++ [a]]> (store w)
        /\ name a = name_of p /\ actor a = peer_of p /\ type a = type_of p
        /\ price a = price_of p /\ time a = Date_now e
        /\ match lastAction with
           | Some t => recorded_successor t a /\ legal_successor t a
           | None => recorded_first a
           end).
Proof.
  destruct p as [peer name price|peer name price|peer name price]; simpl.
  - unfold openAuction_from. destruct lastAction as [t|].
    + destruct (neq (type t) "close" || neq (owner t) peer) eqn:Hg; [by left|].
      apply orb_false_iff in Hg as [Ht Ho].
      apply neq_false in Ht. apply neq_false in Ho.
      right. unfold bind, ret. rewrite updateCore_eq. simpl.
      eexists. split; [done|]. split; [reflexivity|]. simpl.
      repeat split; try done; [by left|by right; left].
    + right. unfold bind, ret. rewrite updateCore_eq. simpl.
      eexists. split; [done|]. split; [reflexivity|]. by simpl.
  - unfold bidAuction_from. destruct lastAction as [t|]; [|by left].
    destruct (String.eqb (type t) "close") eqn:Ht; [by left|].
    destruct (JS.le _ _) eqn:Hle; [by left|].
    apply String.eqb_neq in Ht.
    right. unfold bind, ret. rewrite updateCore_eq. simpl.
    eexists. split; [done|]. split; [reflexivity|]. simpl.
    repeat split; try done; [by right; left|by right; right].
  - unfold closeAuction_from. destruct lastAction as [t|]; [|by left].
    destruct (neq (owner t) peer) eqn:Ho; [by left|].
    destruct (neq (Block.price t) price) eqn:Hp; [by left|].
    apply neq_false in Ho. apply neq_false in Hp.
    right. unfold bind, ret. rewrite updateCore_eq. simpl.
    eexists. split; [done|]. split; [reflexivity|]. simpl.
    repeat split; try done; [by right; right|by left].
Qed.

Lemma store_announce p e w : store (snd (announce p e w)) = store w.
Proof. by destruct p. Qed.

(** What an event does to the store, given the block its operation
    read. *)
Lemma occur_outcome e ev w :
  store (snd (occur ev e w)) = store w
  \/ (exists p len a,
        ev = Resume p len
        /\ store (snd (occur ev e w)) = <[name_of p := log w (name_of p) ++ [a]]> (store w)
        /\ name a = name_of p /\ actor a = peer_of p /\ type a = type_of p
        /\ price a = price_of p /\ time a = Date_now e
        /\ match last (take len (log w (name_of p))) with
           | Some t => recorded_successor t a /\ legal_successor t a
           | None => recorded_first a
           end).
Proof.
  destruct ev as [p|p len]; simpl.
  - left. apply store_announce.
  - unfold bind, block_read, ret.
    destruct (resume_outcome p (last (take len (log w (name_of p)))) e w)
      as [[_ Hs]|(a & _ & Hs & H)].
    + left. by destruct (resume _ _ _ _).
    + right. exists p, len, a. split; [done|]. split; [|done].
      by destruct (resume _ _ _ _).
Qed.

Lemma sequential_step_invariants e ev w :
  match ev with
  | Call _ => True
  | Resume p len => len = length (log w (name_of p))
  end ->
  legal_store w /\ recorded_store w ->
  legal_store (snd (occur ev e w)) /\ recorded_store (snd (occur ev e w)).
Proof.
  intros Hseq [Hl Hr].
  destruct (occur_outcome e ev w)
    as [Hs|(p & len & a & -> & Hs & Hn & _ & _ & _ & _ & Ha)].
  - split; [by apply (legal_store_ext w)|by apply (recorded_store_ext w)].
  - rewrite Hseq, firstn_all in Ha.
    split; intros cn; destruct (decide (name_of p = cn)) as [<-|Hne].
    + rewrite (log_of_store _ _ _ _ Hs). apply legal_log_snoc; [apply Hl|].
      intros tail Htail. rewrite Htail in Ha. apply Ha.
    + rewrite (log_of_store_ne _ _ _ _ _ Hs Hne). apply Hl.
    + rewrite (log_of_store _ _ _ _ Hs). apply recorded_log_snoc; [apply Hr|done|].
      destruct (last (log w (name_of p))); [apply Ha|done].
    + rewrite (log_of_store_ne _ _ _ _ _ Hs Hne). apply Hr.
Qed.

Lemma sequential_invariants evs w :
  sequential evs w ->
  legal_store w /\ recorded_store w ->
  legal_store (interleave evs w) /\ recorded_store (interleave evs w).
Proof.
  revert w. induction evs as [|[e ev] evs IH]; intros w Hseq Hw; [done|].
  destruct Hseq as [Hev Hseq]. simpl. apply IH; [done|].
  by apply sequential_step_invariants.
Qed.

Lemma sequentially_produced_invariants w :
  sequentially_produced w -> legal_store w /\ recorded_store w.
Proof.
  intros (evs & w0 & H0 & Hseq & ->). apply sequential_invariants; [done|].
  split; [by apply legal_store_start|by apply recorded_store_start].
Qed.

(** Operations run to completion one after the other are operations
    that each go on while their core has the length they read. *)
Lemma run_sequential ps w :
  exists evs, sequential evs w /\ interleave evs w = run ps w.
Proof.
  revert w. induction ps as [|[e p] ps IH]; intros w; [by exists []|].
  destruct (IH (snd (propose p e w))) as (evs & Hseq & Hrun).
  assert (Hlog : log (snd (announce p e w)) (name_of p) = log w (name_of p))
    by (destruct p; reflexivity).
  assert (Hstep : snd (occur (Resume p (length (log w (name_of p)))) e
                         (snd (occur (Call p) e w)))
                  = snd (propose p e w)).
  { rewrite propose_uninterrupted. simpl. unfold bind, block_read, ret.
    rewrite Hlog, firstn_all. by destruct (resume _ _ _ _). }
  exists ((e, Call p) :: (e, Resume p (length (log w (name_of p)))) :: evs).
  split.
  - change (True
            /\ length (log w (name_of p)) = length (log (snd (occur (Call p) e w)) (name_of p))
               /\ sequential evs (snd (occur (Resume p (length (log w (name_of p)))) e
                                         (snd (occur (Call p) e w))))).
    split; [done|]. split; [by rewrite <- Hlog|]. by rewrite Hstep.
  - change (interleave evs (snd (occur (Resume p (length (log w (name_of p)))) e
                                   (snd (occur (Call p) e w))))
            = run ps (snd (propose p e w))).
    by rewrite Hstep.
Qed.

Lemma produced_sequentially_produced w : produced w -> sequentially_produced w.
Proof.
  intros (ps & w0 & H0 & ->). destruct (run_sequential ps w0) as (evs & Hseq & <-).
  by exists evs, w0.
Qed.

(** The scenario of the specification, as calls and resumptions. *)
Lemma sequentially_produced_w7 : sequentially_produced Scenario.w7.
Proof.
  exists [ (Scenario.at_time 1, Call (Open "A" "pic1" "75"));
           (Scenario.at_time 1, Resume (Open "A" "pic1" "75") 0);
           (Scenario.at_time 2, Call (Bid "B" "pic1" "75"));
           (Scenario.at_time 2, Resume (Bid "B" "pic1" "75") 1);
           (Scenario.at_time 3, Call (Bid "C" "pic1" "75.5"));
           (Scenario.at_time 3, Resume (Bid "C" "pic1" "75.5") 1);
           (Scenario.at_time 4, Call (Bid "B" "pic1" "80"));
           (Scenario.at_time 4, Resume (Bid "B" "pic1" "80") 2);
           (Scenario.at_time 5, Call (Close "A" "pic1" "80"));
           (Scenario.at_time 5, Resume (Close "A" "pic1" "80") 3);
           (Scenario.at_time 6, Call (Open "A" "pic1" "90"));
           (Scenario.at_time 6, Resume (Open "A" "pic1" "90") 4);
           (Scenario.at_time 7, Call (Open "B" "pic1" "90"));
           (Scenario.at_time 7, Resume (Open "B" "pic1" "90") 4) ], Scenario.fresh.
  split; [reflexivity|]. split; [|by vm_compute].
  vm_compute. repeat split.
Qed.

Lemma log_w7 :
  log Scenario.w7 "pic1"
  = [ Auction "open" "pic1" "A" "A" "75" 1;
      Auction "bid" "pic1" "A" "C" "75.5" 3;
      Auction "bid" "pic1" "A" "B" "80" 4;
      Auction "close" "pic1" "B" "A" "80" 5;
      Auction "open" "pic1" "B" "B" "90" 7 ].
Proof. by vm_compute. Qed.

(** C2, amended. Take any log built from an empty store by operations
    that each append while their core still has the length they read, so
    that no block comes between an operation's read of the tail and its
    own append. In such a log each stretch of consecutive entries that
    holds no [close] entry, and whose prices all convert to numbers, has
    strictly increasing prices. Prices start afresh at each reopen. *)
Theorem prices_increase_within_round w name l1 r l2 :
  sequentially_produced w ->
  log w name = l1 ++ r ++ l2 ->
  Forall numeric_bid r ->
  strictly_increasing (non_close_prices r) = true.
Proof.
  intros Hw Heq Hr.
  apply (legal_stretch_increasing (log w name) r) with (l1 := l1) (l2 := l2); try done.
  by apply sequentially_produced_invariants.
Qed.

Lemma prices_increase_within_round_witness :
  strictly_increasing
    (non_close_prices
       [ Auction "open" "pic1" "A" "A" "75" 1;
         Auction "bid" "pic1" "A" "C" "75.5" 3;
         Auction "bid" "pic1" "A" "B" "80" 4 ]) = true.
Proof.
  apply (prices_increase_within_round Scenario.w7 "pic1" []
           [ Auction "open" "pic1" "A" "A" "75" 1;
             Auction "bid" "pic1" "A" "C" "75.5" 3;
             Auction "bid" "pic1" "A" "B" "80" 4 ]
           [ Auction "close" "pic1" "B" "A" "80" 5;
             Auction "open" "pic1" "B" "B" "90" 7 ]).
  - apply sequentially_produced_w7.
  - apply log_w7.
  - repeat constructor; simpl; try discriminate; vm_compute; discriminate.
Defined.

(** ** Logs of operations that do not interleave *)

(** X11. In a log built by operations that each append while their core
    still has the length they read, and with prices that are strings, a
    [close] entry repeats the price string of the entry directly before
    it, has that entry's actor as owner, and was made by the peer in that
    entry's owner field. *)
Theorem close_entry_records w core_name a c :
  sequentially_produced w ->
  consecutive (log w core_name) a c ->
  type c = "close" ->
  price c = price a /\ owner c = actor a /\ actor c = owner a.
Proof.
  intros Hw Hac Hc. apply sequentially_produced_invariants in Hw as [_ Hw].
  destruct (proj2 (proj2 (Hw core_name)) a c Hac)
    as [(H & _)|[(H & _)|(_ & Ho & Ha & Hp)]]; try congruence. done.
Qed.

Lemma close_entry_records_witness :
  price (Auction "close" "pic1" "B" "A" "80" 5) = price (Auction "bid" "pic1" "A" "B" "80" 4)
  /\ owner (Auction "close" "pic1" "B" "A" "80" 5) = actor (Auction "bid" "pic1" "A" "B" "80" 4)
  /\ actor (Auction "close" "pic1" "B" "A" "80" 5) = owner (Auction "bid" "pic1" "A" "B" "80" 4).
Proof.
  apply (close_entry_records Scenario.w7 "pic1").
  - apply sequentially_produced_w7.
  - exists [ Auction "open" "pic1" "A" "A" "75" 1; Auction "bid" "pic1" "A" "C" "75.5" 3 ],
           [ Auction "open" "pic1" "B" "B" "90" 7 ].
    apply log_w7.
  - reflexivity.
Defined.

(** X12. In a log built by operations that each append while their core
    still has the length they read, an [open] entry that is not the
    first block directly follows a [close] entry whose owner field is the
    opening peer, and it names that peer as owner and actor. *)
Theorem open_entry_records w core_name a o :
  sequentially_produced w ->
  consecutive (log w core_name) a o ->
  type o = "open" ->
  type a = "close" /\ owner a = actor o /\ owner o = actor o.
Proof.
  intros Hw Hao Ho. apply sequentially_produced_invariants in Hw as [_ Hw].
  destruct (proj2 (proj2 (Hw core_name)) a o Hao)
    as [(_ & Ht & H1 & H2)|[(H & _)|(H & _)]]; try congruence. done.
Qed.

Lemma open_entry_records_witness :
  type (Auction "close" "pic1" "B" "A" "80" 5) = "close"
  /\ owner (Auction "close" "pic1" "B" "A" "80" 5) = actor (Auction "open" "pic1" "B" "B" "90" 7)
  /\ owner (Auction "open" "pic1" "B" "B" "90" 7) = actor (Auction "open" "pic1" "B" "B" "90" 7).
Proof.
  apply (open_entry_records Scenario.w7 "pic1").
  - apply sequentially_produced_w7.
  - exists [ Auction "open" "pic1" "A" "A" "75" 1; Auction "bid" "pic1" "A" "C" "75.5" 3;
             Auction "bid" "pic1" "A" "B" "80" 4 ], [].
    apply log_w7.
  - reflexivity.
Defined.

Lemma recorded_seller_carried core_name l l1 o r l2 :
  recorded_log core_name l ->
  l = l1 ++ o :: r ++ l2 ->
  type o = "open" ->
  Forall (fun a => type a <> "close") r ->
  owner o = actor o
  /\ Forall (fun a => type a = "bid" /\ owner a = actor o) r.
Proof.
  intros Hl Heq Ho Hr.
  assert (Hoo : owner o = actor o).
  { apply (recorded_open_owner core_name l); [done| |done].
    rewrite Heq. apply elem_of_app. right. by left. }
  split; [done|]. rewrite <- Hoo.
  apply (recorded_stretch_owner core_name l r Hl l1 o l2); try done.
  rewrite Ho. discriminate.
Qed.

(** X13. The seller is carried through a round: in a log built by
    operations that each append while their core still has the length
    they read, the entries that follow an [open] entry up to the next
    [close] entry are bids whose owner field is the peer that opened the
    round. *)
Theorem seller_kept_through_round w core_name l1 o r l2 :
  sequentially_produced w ->
  log w core_name = l1 ++ o :: r ++ l2 ->
  type o = "open" ->
  Forall (fun a => type a <> "close") r ->
  Forall (fun a => type a = "bid" /\ owner a = actor o) r.
Proof.
  intros Hw Heq Ho Hr. apply sequentially_produced_invariants in Hw as [_ Hw].
  by apply (recorded_seller_carried core_name (log w core_name) l1 o r l2).
Qed.

Lemma seller_kept_through_round_witness :
  Forall (fun a => type a = "bid" /\ owner a = actor (Auction "open" "pic1" "A" "A" "75" 1))
    [ Auction "bid" "pic1" "A" "C" "75.5" 3; Auction "bid" "pic1" "A" "B" "80" 4 ].
Proof.
  apply (seller_kept_through_round Scenario.w7 "pic1" []
           (Auction "open" "pic1" "A" "A" "75" 1)
           [ Auction "bid" "pic1" "A" "C" "75.5" 3; Auction "bid" "pic1" "A" "B" "80" 4 ]
           [ Auction "close" "pic1" "B" "A" "80" 5; Auction "open" "pic1" "B" "B" "90" 7 ]).
  - apply sequentially_produced_w7.
  - apply log_w7.
  - reflexivity.
  - repeat constructor; simpl; discriminate.
Defined.

(** The last entry of a round opened by [o] has the opener in its owner
    field. *)
Lemma recorded_round_owner core_name l l1 o r l2 t :
  recorded_log core_name l ->
  l = l1 ++ o :: r ++ l2 ->
  type o = "open" ->
  Forall (fun a => type a <> "close") r ->
  last (o :: r) = Some t ->
  owner t = actor o.
Proof.
  intros Hl Heq Ho Hr Ht.
  destruct (recorded_seller_carried core_name l l1 o r l2 Hl Heq Ho Hr) as [Hoo Hs].
  apply last_Some in Ht as (pre & Hpre).
  assert (Hin : t ∈ o :: r) by (rewrite Hpre; apply elem_of_app; right; by left).
  apply elem_of_cons in Hin as [->|Hin]; [done|].
  by apply (proj1 (Forall_forall _ _) Hs).
Qed.

(** X14. A round is closed by its seller in favour of the last bidder: in
    a log built by operations that each append while their core still
    has the length they read, and with prices that are strings, the
    [close] entry that ends a round opened by [o] has the opener as
    actor, and as owner and price the actor and price string of the last
    entry [t] of the round, which is [o] itself when nobody bid. *)
Theorem round_closed_by_seller w core_name l1 o r c l2 t :
  sequentially_produced w ->
  log w core_name = l1 ++ o :: r ++ c :: l2 ->
  type o = "open" ->
  Forall (fun a => type a <> "close") r ->
  type c = "close" ->
  last (o :: r) = Some t ->
  actor c = actor o /\ owner c = actor t /\ price c = price t.
Proof.
  intros Hw Heq Ho Hr Hc Ht.
  apply sequentially_produced_invariants in Hw as [_ Hw]. specialize (Hw core_name).
  pose proof (recorded_round_owner core_name _ l1 o r (c :: l2) t Hw Heq Ho Hr Ht) as Hown.
  apply last_Some in Ht as (pre & Hpre).
  assert (Htc : recorded_successor t c).
  { apply (proj2 (proj2 Hw)). exists (l1 ++ pre), l2.
    rewrite Heq. change (o :: r ++ c :: l2) with ((o :: r) ++ c :: l2).
    rewrite Hpre. by rewrite <- !app_assoc. }
  destruct Htc as [(H & _)|[(H & _)|(_ & H1 & H2 & H3)]]; try congruence.
  split; [congruence|done].
Qed.

Lemma round_closed_by_seller_witness :
  actor (Auction "close" "pic1" "B" "A" "80" 5) = actor (Auction "open" "pic1" "A" "A" "75" 1)
  /\ owner (Auction "close" "pic1" "B" "A" "80" 5) = actor (Auction "bid" "pic1" "A" "B" "80" 4)
  /\ price (Auction "close" "pic1" "B" "A" "80" 5) = price (Auction "bid" "pic1" "A" "B" "80" 4).
Proof.
  apply (round_closed_by_seller Scenario.w7 "pic1" []
           (Auction "open" "pic1" "A" "A" "75" 1)
           [ Auction "bid" "pic1" "A" "C" "75.5" 3; Auction "bid" "pic1" "A" "B" "80" 4 ]
           (Auction "close" "pic1" "B" "A" "80" 5)
           [ Auction "open" "pic1" "B" "B" "90" 7 ]).
  - apply sequentially_produced_w7.
  - apply log_w7.
  - reflexivity.
  - repeat constructor; simpl; discriminate.
  - reflexivity.
  - reflexivity.
Defined.

(** X15. The winner made the highest bid: in a log built by operations
    that each append while their core still has the length they read,
    when a stretch of entries without [close] entry whose prices are all
    strings that convert to numbers is followed by a [close] entry, no
    entry of the stretch has a price above the closing price, and the
    owner recorded by the close is the actor of the last entry of the
    stretch, whose price string is the closing price. *)
Theorem winner_made_highest_bid w core_name l1 r c l2 :
  sequentially_produced w ->
  log w core_name = l1 ++ r ++ c :: l2 ->
  Forall numeric_bid r ->
  type c = "close" ->
  Forall (fun a => JS.le (JS.Number (price a)) (JS.Number (price c)) = true) r
  /\ (forall t, last r = Some t -> owner c = actor t /\ price c = price t).
Proof.
  intros Hw Heq Hr Hc. apply sequentially_produced_invariants in Hw as [Hleg Hrec].
  assert (Hlast : forall t, last r = Some t -> owner c = actor t /\ price c = price t).
  { intros t Ht. apply last_Some in Ht as (pre & ->).
    assert (Htc : recorded_successor t c).
    { apply (proj2 (proj2 (Hrec core_name))). exists (l1 ++ pre), l2.
      rewrite Heq. by rewrite <- !app_assoc. }
    destruct Htc as [(H & _)|[(H & _)|(_ & H1 & _ & H3)]];
      [congruence|congruence|done]. }
  split; [|done].
  destruct (last r) as [t|] eqn:Ht; [|apply last_None in Ht; subst r; constructor].
  destruct (Hlast t eq_refl) as [_ ->].
  assert (Hnc : Forall (fun a => type a <> "close") r)
    by (eapply Forall_impl; [exact Hr|]; by intros a [? ?]).
  assert (Hinc : strictly_increasing (List.map (fun a => JS.Number (price a)) r) = true).
  { rewrite <- non_close_prices_stretch by done.
    by apply (legal_stretch_increasing (log w core_name) r) with (l1 := l1) (l2 := c :: l2). }
  apply (increasing_le_last _ (JS.Number (price t))) in Hinc.
  - by apply Forall_map in Hinc.
  - apply Forall_map. eapply Forall_impl; [exact Hr|]. by intros a [_ ?].
  - change (List.map ?f r) with (f <$> r). by rewrite fmap_last, Ht.
Qed.

Lemma winner_made_highest_bid_witness :
  let r := [ Auction "open" "pic1" "A" "A" "75" 1;
             Auction "bid" "pic1" "A" "C" "75.5" 3;
             Auction "bid" "pic1" "A" "B" "80" 4 ] in
  let c := Auction "close" "pic1" "B" "A" "80" 5 in
  Forall (fun a => JS.le (JS.Number (price a)) (JS.Number (price c)) = true) r
  /\ (forall t, last r = Some t -> owner c = actor t /\ price c = price t).
Proof.
  intros r c.
  apply (winner_made_highest_bid Scenario.w7 "pic1" [] r c
           [ Auction "open" "pic1" "B" "B" "90" 7 ]).
  - apply sequentially_produced_w7.
  - apply log_w7.
  - repeat constructor; simpl; try discriminate; vm_compute; discriminate.
  - reflexivity.
Defined.

Lemma sequentially_produced_w4 : sequentially_produced Scenario.w4.
Proof.
  exists [ (Scenario.at_time 1, Call (Open "A" "pic1" "75"));
           (Scenario.at_time 1, Resume (Open "A" "pic1" "75") 0);
           (Scenario.at_time 2, Call (Bid "B" "pic1" "75"));
           (Scenario.at_time 2, Resume (Bid "B" "pic1" "75") 1);
           (Scenario.at_time 3, Call (Bid "C" "pic1" "75.5"));
           (Scenario.at_time 3, Resume (Bid "C" "pic1" "75.5") 1);
           (Scenario.at_time 4, Call (Bid "B" "pic1" "80"));
           (Scenario.at_time 4, Resume (Bid "B" "pic1" "80") 2) ], Scenario.fresh.
  split; [reflexivity|]. split; [|by vm_compute].
  vm_compute. repeat split.
Qed.

(** X21. Only the seller closes. Take a log built by operations that each
    append while their core still has the length they read, with prices
    that are strings, whose last round was opened by [o] and is not
    closed. A close that reads the tail of that log is taken exactly when
    the closing peer is the peer that opened the round and the proposed
    price is the price string of the last entry. *)
Theorem only_seller_closes w name l1 o r peer price e :
  sequentially_produced w ->
  log w name = l1 ++ o :: r ->
  type o = "open" ->
  Forall (fun a => type a <> "close") r ->
  fst (closeAuction peer name price e w) = true
  <-> peer = actor o /\ exists t, last (o :: r) = Some t /\ Block.price t = price.
Proof.
  intros Hw Heq Ho Hr. apply sequentially_produced_invariants in Hw as [_ Hw].
  assert (Hown : forall t, last (o :: r) = Some t -> owner t = actor o).
  { intros t Ht.
    apply (recorded_round_owner name (log w name) l1 o r [] t); try done.
    by rewrite app_nil_r. }
  assert (Hlast : last (log w name) = last (o :: r)).
  { rewrite Heq. destruct (last (o :: r)) as [t|] eqn:Ht; [|by apply last_None in Ht].
    apply last_Some in Ht as (pre & ->). rewrite app_assoc. apply last_snoc. }
  rewrite closeAuction_eq, Hlast.
  destruct (last (o :: r)) as [t|] eqn:Ht; [|by apply last_None in Ht].
  specialize (Hown t eq_refl).
  destruct (neq (owner t) peer) eqn:Hp.
  - apply neq_true in Hp. split; [discriminate|]. intros [-> _]. done.
  - apply neq_false in Hp. destruct (neq (Block.price t) price) eqn:Hpr.
    + apply neq_true in Hpr. split; [discriminate|].
      intros (_ & t' & [= <-] & H). done.
    + apply neq_false in Hpr. split; [|done]. intros _. split; [congruence|].
      by exists t.
Qed.

Lemma only_seller_closes_witness :
  fst (closeAuction "A" "pic1" "80" (Scenario.at_time 5) Scenario.w4) = true
  <-> "A" = actor (Auction "open" "pic1" "A" "A" "75" 1)
      /\ exists t,
           last [ Auction "open" "pic1" "A" "A" "75" 1;
                  Auction "bid" "pic1" "A" "C" "75.5" 3;
                  Auction "bid" "pic1" "A" "B" "80" 4 ] = Some t
           /\ Block.price t = "80".
Proof.
  apply (only_seller_closes Scenario.w4 "pic1" []
           (Auction "open" "pic1" "A" "A" "75" 1)
           [ Auction "bid" "pic1" "A" "C" "75.5" 3; Auction "bid" "pic1" "A" "B" "80" 4 ]
           "A" "80" (Scenario.at_time 5)).
  - apply sequentially_produced_w4.
  - by vm_compute.
  - reflexivity.
  - repeat constructor; simpl; discriminate.
Defined.

(** ** A proposal delivered twice *)

(** X16. What happens to a second copy of a proposal that reads the core
    right after the first copy was appended, prices being strings. A
    second open, by any peer at any price, is turned down, and so is a
    second bid at the same numeric price; both leave the store as it is.
    A second bid at a price that is no number is taken again. A second
    close is taken again exactly when the closing peer is also the actor
    of the entry that was closed, as when a seller closes an auction that
    nobody bid on. *)
Theorem redelivery_outcomes :
  (forall (peer name price peer' price' : string) (e e' : env) (w : world),
      fst (openAuction peer name price e w) = true ->
      let w' := snd (openAuction peer name price e w) in
      fst (openAuction peer' name price' e' w') = false
      /\ store (snd (openAuction peer' name price' e' w')) = store w')
  /\ (forall (peer name price peer' : string) (e e' : env) (w : world),
         fst (bidAuction peer name price e w) = true ->
         let w' := snd (bidAuction peer name price e w) in
         (is_number price ->
          fst (bidAuction peer' name price e' w') = false
          /\ store (snd (bidAuction peer' name price e' w')) = store w')
         /\ (JS.Number price = JS.NaN ->
             fst (bidAuction peer' name price e' w') = true))
  /\ (forall (peer name price : string) (e e' : env) (w : world) (tail : auction),
         last (log w name) = Some tail ->
         fst (closeAuction peer name price e w) = true ->
         let w' := snd (closeAuction peer name price e w) in
         fst (closeAuction peer name price e' w') = true <-> actor tail = peer).
Proof.
  split; [|split].
  - intros peer name price peer' price' e e' w Hres w'.
    assert (Htail : exists t, last (log w' name) = Some t /\ type t = "open").
    { unfold w'. rewrite openAuction_eq in *.
      destruct (last (log w name)) as [t|];
        [destruct (_ || _); [discriminate|]|];
        rewrite (log_accepted _ _ (Auction "open" name _ _ _ _)), last_snoc; eauto. }
    destruct Htail as (t & Htail & Ht).
    rewrite (openAuction_active _ _ _ _ _ t); [done|done|]. rewrite Ht. discriminate.
  - intros peer name price peer' e e' w Hres w'.
    assert (Htail : exists t, last (log w' name) = Some t
                              /\ type t = "bid" /\ Block.price t = price).
    { unfold w'. rewrite bidAuction_eq in *.
      destruct (last (log w name)) as [t|]; [|discriminate].
      destruct (String.eqb _ _); [discriminate|].
      destruct (JS.le _ _); [discriminate|].
      rewrite (log_accepted _ _ (Auction "bid" name _ _ _ _)), last_snoc. eauto. }
    destruct Htail as (t & Htail & Ht & Hp).
    rewrite bidAuction_eq, Htail, Ht, Hp. simpl. split.
    + intros Hnum. by rewrite le_refl.
    + intros Hnan. by rewrite Hnan.
  - intros peer name price e e' w tail Htail Hres w'.
    assert (Hfirst : closeAuction peer name price e w
                     = accepted w (info_closed peer name price)
                         (Auction "close" name (actor tail) peer price (Date_now e))).
    { rewrite closeAuction_eq, Htail in *.
      destruct (neq (owner tail) peer); [discriminate|].
      by destruct (neq (Block.price tail) price). }
    unfold w'. rewrite Hfirst, closeAuction_eq.
    rewrite (log_accepted _ _ (Auction "close" name _ _ _ _)), last_snoc. simpl.
    assert (Hpp : neq price price = false) by by apply neq_false.
    rewrite Hpp.
    destruct (neq (actor tail) peer) eqn:Hp.
    + apply neq_true in Hp. split; [discriminate|done].
    + apply neq_false in Hp. done.
Qed.

Lemma redelivery_outcomes_witness :
  (let w' := snd (openAuction "A" "pic1" "75" (Scenario.at_time 1) Scenario.fresh) in
   fst (openAuction "A" "pic1" "75" (Scenario.at_time 2) w') = false
   /\ store (snd (openAuction "A" "pic1" "75" (Scenario.at_time 2) w')) = store w')
  /\ (let w' := snd (bidAuction "C" "pic1" "75.5" (Scenario.at_time 3) Scenario.w2) in
      (is_number "75.5" ->
       fst (bidAuction "C" "pic1" "75.5" (Scenario.at_time 4) w') = false
       /\ store (snd (bidAuction "C" "pic1" "75.5" (Scenario.at_time 4) w')) = store w')
      /\ (JS.Number "75.5" = JS.NaN ->
          fst (bidAuction "C" "pic1" "75.5" (Scenario.at_time 4) w') = true))
  /\ (let w' := snd (closeAuction "A" "pic1" "80" (Scenario.at_time 5) Scenario.w4) in
      fst (closeAuction "A" "pic1" "80" (Scenario.at_time 6) w') = true
      <-> actor (Auction "bid" "pic1" "A" "B" "80" 4) = "A").
Proof.
  split; [|split].
  - apply (proj1 redelivery_outcomes "A" "pic1" "75" "A" "75").
    vm_compute. reflexivity.
  - apply (proj1 (proj2 redelivery_outcomes) "C" "pic1" "75.5" "C").
    vm_compute. reflexivity.
  - apply (proj2 (proj2 redelivery_outcomes) "A" "pic1" "80" (Scenario.at_time 5)
             (Scenario.at_time 6) Scenario.w4 (Auction "bid" "pic1" "A" "B" "80" 4)).
    + vm_compute. reflexivity.
    + vm_compute. reflexivity.
Defined.

(** ** Interleavings *)




(** Every block of [l] is an [open] entry of a peer for itself, or is what
    the rules record after some earlier block of [l]. *)
Lemma explained_snoc core_name (l : list auction) a :
  (Forall (fun b => name b = core_name
                    /\ (type b = "open" \/ type b = "bid" \/ type b = "close")) l
   /\ forall l1 b l2, l = l1 ++ b :: l2 ->
        recorded_first b \/ exists a', a' ∈ l1 /\ recorded_successor a' b) ->
  name a = core_name ->
  (recorded_first a \/ exists a', a' ∈ l /\ recorded_successor a' a) ->
  Forall (fun b => name b = core_name
                   /\ (type b = "open" \/ type b = "bid" \/ type b = "close")) (l ++ [a])
  /\ forall l1 b l2, l ++ [a] = l1 ++ b :: l2 ->
       recorded_first b \/ exists a', a' ∈ l1 /\ recorded_successor a' b.
Proof.
  intros [Hf He] Hn Ha. split.
  - apply Forall_app. split; [done|]. constructor; [|constructor]. split; [done|].
    destruct Ha as [[Ht _]|(a' & _ & Hs)]; [by left|].
    by apply (recorded_successor_type a').
  - intros l1 b l2 Heq. destruct l2 as [|z l2 _] using rev_ind.
    + apply app_inj_tail in Heq as [-> ->]. done.
    + change (l1 ++ b :: l2 ++ [z]) with (l1 ++ (b :: l2) ++ [z]) in Heq.
      rewrite app_assoc in Heq. apply app_inj_tail in Heq as [-> _].
      by apply (He l1 b l2).
Qed.

(** X24. However the operations interleave, every block sits in the core
    of its own name and is an [open], a [bid] or a [close] entry, and
    every block is either an [open] entry that names its actor as owner,
    or what the rules record after some earlier block of the same core,
    prices being strings: a bid carries that block's owner, and
    [Number(price) <= Number(that block's price)] is false; a close
    repeats that block's price string, with its actor as owner and its
    owner as actor; a reopen follows a [close] entry owned by the opener.
    The first block of a core is an [open] entry. *)
Theorem interleaved_blocks_explained w core_name :
  interleaved w ->
  Forall (fun b => name b = core_name
                   /\ (type b = "open" \/ type b = "bid" \/ type b = "close"))
         (log w core_name)
  /\ forall l1 b l2, log w core_name = l1 ++ b :: l2 ->
       recorded_first b \/ exists a, a ∈ l1 /\ recorded_successor a b.
Proof.
  intros (evs & w0 & H0 & ->). revert core_name.
  assert (Hstart : forall cn,
             Forall (fun b => name b = cn
                              /\ (type b = "open" \/ type b = "bid" \/ type b = "close"))
                    (log w0 cn)
             /\ forall l1 b l2, log w0 cn = l1 ++ b :: l2 ->
                  recorded_first b \/ exists a, a ∈ l1 /\ recorded_successor a b).
  { intros cn. unfold log. rewrite H0, lookup_empty. simpl. split; [constructor|].
    intros l1 b l2 H. by destruct l1. }
  clear H0. revert w0 Hstart.
  induction evs as [|[e ev] evs IH]; intros w0 Hw0 cn; [apply Hw0|].
  simpl. apply IH. clear IH cn. intros cn.
  destruct (occur_outcome e ev w0)
    as [Hs|(p & len & a & -> & Hs & Hn & _ & _ & _ & _ & Ha)].
  - rewrite (log_same_store _ _ _ Hs). apply Hw0.
  - destruct (decide (name_of p = cn)) as [<-|Hne];
      [|rewrite (log_of_store_ne _ _ _ _ _ Hs Hne); apply Hw0].
    rewrite (log_of_store _ _ _ _ Hs). apply explained_snoc; [apply Hw0|done|].
    destruct (last (take len (log w0 (name_of p)))) as [t|] eqn:Ht; [|by left].
    right. exists t. split; [|apply Ha].
    apply last_Some in Ht as (pre & Hpre).
    rewrite <- (take_drop len (log w0 (name_of p))), Hpre.
    apply elem_of_app. left. apply elem_of_app. right. by left.
Qed.

Lemma interleaved_blocks_explained_witness :
  let w := interleave [ (Scenario.at_time 2, Resume (Bid "B" "pic1" "90") 1);
                        (Scenario.at_time 3, Resume (Bid "C" "pic1" "80") 1) ] Scenario.w1 in
  Forall (fun b => name b = "pic1"
                   /\ (type b = "open" \/ type b = "bid" \/ type b = "close"))
         (log w "pic1")
  /\ forall l1 b l2, log w "pic1" = l1 ++ b :: l2 ->
       recorded_first b \/ exists a, a ∈ l1 /\ recorded_successor a b.
Proof.
  intros w. apply (interleaved_blocks_explained w "pic1").
  exists [ (Scenario.at_time 1, Call (Open "A" "pic1" "75"));
           (Scenario.at_time 1, Resume (Open "A" "pic1" "75") 0);
           (Scenario.at_time 2, Resume (Bid "B" "pic1" "90") 1);
           (Scenario.at_time 3, Resume (Bid "C" "pic1" "80") 1) ], Scenario.fresh.
  split; [reflexivity|]. by vm_compute.
Defined.

(** ** Blocks of a command line *)

Lemma propose_outcome_fields p e w :
  (exists info err, propose p e w = rejected w info err)
  \/ (exists info a,
        propose p e w = accepted w info a
        /\ name a = name_of p /\ actor a = peer_of p /\ price a = price_of p
        /\ type a = type_of p).
Proof.
  destruct p as [peer name price|peer name price|peer name price]; simpl.
  - rewrite openAuction_eq.
    destruct (last (log w name)) as [t|];
      [destruct (_ || _); [left; eauto|]|]; right; do 2 eexists; by split.
  - rewrite bidAuction_eq.
    destruct (last (log w name)) as [t|]; [|left; eauto].
    destruct (String.eqb _ _); [left; eauto|].
    destruct (JS.le _ _); [left; eauto|]. right; do 2 eexists; by split.
  - rewrite closeAuction_eq.
    destruct (last (log w name)) as [t|]; [|left; eauto].
    destruct (neq _ _); [left; eauto|].
    destruct (neq _ _); [left; eauto|]. right; do 2 eexists; by split.
Qed.

Lemma proposal_of_fields peer type name price p :
  proposal_of peer type name price = Some p ->
  name_of p = name /\ peer_of p = peer /\ price_of p = price /\ type_of p = type.
Proof.
  unfold proposal_of.
  destruct (String.eqb type "open") eqn:Ho;
    [apply String.eqb_eq in Ho; by intros [= <-]|].
  destruct (String.eqb type "bid") eqn:Hb;
    [apply String.eqb_eq in Hb; by intros [= <-]|].
  destruct (String.eqb type "close") eqn:Hc;
    [apply String.eqb_eq in Hc; by intros [= <-]|done].
Qed.

(** X22. What a command line puts into a core: the block that
    [processAction] appends has the first three words of the line as its
    type, name and price, so that its name and its price are neither
    empty nor hold white space, and it has the local peer as actor. *)
Theorem command_line_blocks localPeer JSON_stringify action e w core_name a :
  log (snd (processAction localPeer JSON_stringify action e w)) core_name
  = log w core_name ++ [a] ->
  (exists rest : list string,
     JS.split_white_space (JS.trim action) = type a :: name a :: price a :: rest)
  /\ actor a = localPeer /\ name a = core_name /\ word (name a) /\ word (price a).
Proof.
  assert (Hno : forall w', store w' = store w -> log w' core_name <> log w core_name ++ [a]).
  { intros w' Hs H. unfold log in H. rewrite Hs in H.
    apply (f_equal length) in H. rewrite length_app in H. simpl in H. lia. }
  rewrite processAction_eq.
  destruct (split_white_space_words (JS.trim action)) as [Hblank|Hwords].
  { rewrite Hblank. intros H. by apply Hno in H. }
  destruct (JS.split_white_space (JS.trim action)) as [|t [|n [|p rest]]];
    try (intros H; by apply Hno in H).
  destruct (proposal_of localPeer t n p) as [pr|] eqn:Hpr;
    [|intros H; by apply Hno in H].
  apply proposal_of_fields in Hpr as (Hn & Hpeer & Hprice & Htype).
  apply Forall_cons in Hwords as [_ Hwords].
  apply Forall_cons in Hwords as [Hwn Hwords].
  apply Forall_cons in Hwords as [Hwp _].
  simpl.
  assert (Hlog : forall b : bool,
            log (if b then World (store (snd (propose pr e w))) (console (snd (propose pr e w)))
                            (written w ++ fan_out (swarm_connections e)
                                            (JSON_stringify (Message t n p)))
                 else snd (propose pr e w)) core_name
            = log (snd (propose pr e w)) core_name) by (by intros []).
  rewrite Hlog.
  destruct (propose_outcome_fields pr e w)
    as [(i & err & ->)|(i & a' & -> & Ha1 & Ha2 & Ha3 & Ha4)].
  { intros H. by apply Hno in H. }
  destruct (decide (name a' = core_name)) as [<-|Hne].
  - rewrite log_accepted. intros H. apply app_inv_head in H. injection H as <-.
    rewrite Ha1, Ha2, Ha3, Ha4, Hn, Hpeer, Hprice, Htype. split; [by exists rest|done].
  - rewrite log_accepted_ne by done. intros H.
    apply (f_equal length) in H. rewrite length_app in H. simpl in H. lia.
Qed.

Lemma command_line_blocks_witness :
  let a := Auction "open" "pic1" "A" "A" "75" 1 in
  (exists rest : list string,
     JS.split_white_space (JS.trim "  open pic1   75 ") = type a :: name a :: price a :: rest)
  /\ actor a = "A" /\ name a = "pic1" /\ word (name a) /\ word (price a).
Proof.
  intros a.
  apply (command_line_blocks "A" Sample.stringify "  open pic1   75 " (Scenario.at_time 1)
           Scenario.fresh "pic1" a).
  vm_compute. reflexivity.
Defined.
